(** * carnatus: a shallow embedding of the chess engine (chess.go)

    The development follows the Go source top-down: machine integers,
    pieces, the 120-cell padded board, FEN decoding, squares and moves,
    positions, the move generator, the evaluator, move application and
    the null-window search with its transposition table. *)

From Stdlib Require Import ZArith Ascii String List Bool Lia.
From stdpp Require Import base tactics option list countable gmap strings.

Local Open Scope char_scope.
Local Open Scope Z_scope.

(** ** Go's [int] on a 64-bit platform *)

Module Int.

Definition min_int : Z := - 2 ^ 63.
Definition max_int : Z := 2 ^ 63 - 1.

(** Two's-complement wrap-around of a mathematical integer. *)
Definition wrap (z : Z) : Z := (z + 2 ^ 63) mod 2 ^ 64 - 2 ^ 63.

Definition ok (z : Z) : Prop := min_int <= z <= max_int.

Definition add (x y : Z) : Z := wrap (x + y).
Definition sub (x y : Z) : Z := wrap (x - y).
Definition neg (x : Z) : Z := wrap (- x).
Definition mul (x y : Z) : Z := wrap (x * y).

(** [func abs(n int) int { return int((int64(n) ^ int64(n)>>63) - int64(n)>>63) }]
    The shift binds tighter than [^] and [-], which associate to the left. *)
Definition abs (n : Z) : Z :=
  sub (Z.lxor n (Z.shiftr n 63)) (Z.shiftr n 63).

End Int.

(** ** Outcome of running a piece of Go code

    [Panic] is a run-time panic (index out of range); [OutOfFuel] is the
    embedding's own outcome for a loop or recursion cut by its fuel. *)

Inductive result (A : Type) : Type :=
  | Ok (a : A)
  | Panic
  | OutOfFuel.
Arguments Ok {A} a.
Arguments Panic {A}.
Arguments OutOfFuel {A}.

Global Instance result_ret : MRet result := fun A a => Ok a.
Global Instance result_bind : MBind result := fun A B k r =>
  match r with
  | Ok a => k a
  | Panic => Panic
  | OutOfFuel => OutOfFuel
  end.

Definition is_ok {A} (r : result A) : bool :=
  match r with Ok _ => true | _ => false end.

(** ** Pieces *)

(** [type Piece byte] *)
Abbreviation Piece := ascii (only parsing).

Definition piece_code (p : Piece) : Z := Z.of_N (N_of_ascii p).
Definition piece_of_code (z : Z) : Piece := ascii_of_N (Z.to_N (z mod 256)).

Definition piece_eqb (p q : Piece) : bool := Ascii.eqb p q.

Module Piece.

(** [map[Piece]int{'P': 100, 'N': 280, 'B': 320, 'R': 479, 'Q': 929, 'K': 60000}[p]] *)
Definition value (p : Piece) : Z :=
  match p with
  | "P" => 100
  | "N" => 280
  | "B" => 320
  | "R" => 479
  | "Q" => 929
  | "K" => 60000
  | _ => 0
  end.

Definition ours (p : Piece) : bool := 0 <? value p.

(** The map literal of [Piece.Flip]; a key that is absent yields the zero
    byte. *)
Definition Flip (p : Piece) : Piece :=
  match p with
  | "P" => "p" | "N" => "n" | "B" => "b" | "R" => "r" | "Q" => "q" | "K" => "k"
  | "p" => "P" | "n" => "N" | "b" => "B" | "r" => "R" | "q" => "Q" | "k" => "K"
  | " " => " "
  | "." => "."
  | _ => zero
  end.

(** The 14 piece codes of the data model. *)
Definition valid (p : Piece) : bool :=
  match p with
  | "P" | "N" | "B" | "R" | "Q" | "K"
  | "p" | "n" | "b" | "r" | "q" | "k"
  | " " | "." => true
  | _ => false
  end.

(** A playing piece or the empty square: what an inner cell may hold. *)
Definition playable (p : Piece) : bool :=
  valid p && negb (piece_eqb p " ").

End Piece.

(** ** The board: [type Board [120]Piece] *)

Abbreviation Board := (list ascii) (only parsing).

Definition board_len : Z := 120.

(** [a[i]] with Go's bounds check. *)
Definition board_get (a : Board) (i : Z) : result Piece :=
  if (0 <=? i) && (i <? board_len) then
    match a !! Z.to_nat i with
    | Some p => Ok p
    | None => Panic
    end
  else Panic.

(** [a[i] = p] with Go's bounds check. *)
Definition board_set (a : Board) (i : Z) (p : Piece) : result Board :=
  if (0 <=? i) && (i <? board_len) && (i <? Z.of_nat (length a)) then
    Ok (<[Z.to_nat i := p]> a)
  else Panic.

Module Board.

(** [[
    func (a Board) Flip() (b Board) {
      for i := len(a) - 1; i >= 0; i-- { b[i] = a[len(a)-i-1].Flip() }
      return b
    }
    ]]
    [b] starts as the zero array; the right fold over [0..len-1] performs
    the assignment for [len-1] first, as the loop does. *)
Definition Flip (a : Board) : Board :=
  foldr (fun i b => <[i := Piece.Flip (default zero (a !! (length a - i - 1)%nat))]> b)
        (replicate (length a) zero)
        (seq 0 (length a)).

(** Every cell holds one of the 14 piece codes and there are 120 cells. *)
Definition wf (a : Board) : Prop :=
  length a = 120%nat ∧ Forall (fun p => Piece.valid p = true) a.

End Board.

(** ** Squares: [type Square int] *)

Abbreviation Square := Z (only parsing).

Definition A1 : Square := 91.
Definition H1 : Square := 98.
Definition A8 : Square := 21.
Definition H8 : Square := 28.

Module Square.

(** [func (s Square) Flip() Square { return 119 - s }] *)
Definition Flip (s : Square) : Square := Int.sub 119 s.

End Square.

(** ** Go strings

    A Go string is a sequence of bytes; [string] of Rocq, a list of
    8-bit characters, is used as it is. *)

Definition newline : ascii := ascii_of_N 10.

Definition byte_code (c : ascii) : Z := Z.of_N (N_of_ascii c).
Definition byte_of_code (z : Z) : ascii := ascii_of_N (Z.to_N z).

Module strings.

(** [strings.Split(s, sep)] for a separator of one byte: the pieces
    between the separators, always at least one piece. *)
Fixpoint Split (s : string) (sep : ascii) : list string :=
  match s with
  | EmptyString => [EmptyString]
  | String c s' =>
      if Ascii.eqb c sep then EmptyString :: Split s' sep
      else match Split s' sep with
           | [] => [String c EmptyString]
           | w :: ws => String c w :: ws
           end
  end.

(** [strings.Join(elems, sep)] *)
Fixpoint Join (elems : list string) (sep : string) : string :=
  match elems with
  | [] => EmptyString
  | [e] => e
  | e :: es => (e ++ sep ++ Join es sep)%string
  end.

End strings.

(** [s[i]] on a string, with Go's bounds check. *)
Definition string_index (s : string) (i : Z) : result ascii :=
  if 0 <=? i then
    match String.get (Z.to_nat i) s with
    | Some c => Ok c
    | None => Panic
    end
  else Panic.

(** *** Runes

    [for _, c := range s] decodes [s] as UTF-8: a byte below 0x80 is its
    own rune, a well-formed sequence of two to four bytes is one rune, and
    any other byte yields the replacement rune U+FFFD and is skipped
    alone. *)

Module utf8.

Definition RuneError : Z := 65533.

Definition cont (b : Z) : bool := (128 <=? b) && (b <=? 191).
Definition low6 (b : Z) : Z := Z.land b 63.

(** Accepted range of the second byte, by first byte. *)
Definition second_ok (b0 b1 : Z) : bool :=
  if b0 =? 224 then (160 <=? b1) && (b1 <=? 191)
  else if b0 =? 237 then (128 <=? b1) && (b1 <=? 159)
  else if b0 =? 240 then (144 <=? b1) && (b1 <=? 191)
  else if b0 =? 244 then (128 <=? b1) && (b1 <=? 143)
  else cont b1.

Fixpoint decode (bs : list Z) : list Z :=
  match bs with
  | [] => []
  | b0 :: r0 =>
      if b0 <? 128 then b0 :: decode r0
      else if (b0 <? 194) || (244 <? b0) then RuneError :: decode r0
      else
        match r0 with
        | [] => RuneError :: decode r0
        | b1 :: r1 =>
            if negb (second_ok b0 b1) then RuneError :: decode r0
            else if b0 <? 224 then
              Z.lor (Z.shiftl (Z.land b0 31) 6) (low6 b1) :: decode r1
            else
              match r1 with
              | [] => RuneError :: decode r0
              | b2 :: r2 =>
                  if negb (cont b2) then RuneError :: decode r0
                  else if b0 <? 240 then
                    Z.lor (Z.shiftl (Z.land b0 15) 12)
                          (Z.lor (Z.shiftl (low6 b1) 6) (low6 b2)) :: decode r2
                  else
                    match r2 with
                    | [] => RuneError :: decode r0
                    | b3 :: r3 =>
                        if negb (cont b3) then RuneError :: decode r0
                        else
                          Z.lor (Z.shiftl (Z.land b0 7) 18)
                                (Z.lor (Z.shiftl (low6 b1) 12)
                                       (Z.lor (Z.shiftl (low6 b2) 6) (low6 b3)))
                            :: decode r3
                    end
              end
        end
  end.

(** The runes of a string, in order. *)
Definition runes (s : string) : list Z :=
  decode (map byte_code (list_ascii_of_string s)).

(** [string(r)] for an integer [r]: the UTF-8 encoding of the code
    point, or of U+FFFD when [r] is not a valid code point. *)
Definition encode (r : Z) : string :=
  let bytes :=
    if (0 <=? r) && (r <? 128) then [r]
    else if (0 <=? r) && (r <? 2048) then
      [Z.lor 192 (Z.shiftr r 6); Z.lor 128 (low6 r)]
    else if (r <? 0) || (1114111 <? r) || ((55296 <=? r) && (r <=? 57343)) then
      [239; 191; 189]
    else if r <? 65536 then
      [Z.lor 224 (Z.shiftr r 12); Z.lor 128 (low6 (Z.shiftr r 6));
       Z.lor 128 (low6 r)]
    else
      [Z.lor 240 (Z.shiftr r 18); Z.lor 128 (low6 (Z.shiftr r 12));
       Z.lor 128 (low6 (Z.shiftr r 6)); Z.lor 128 (low6 r)]
  in string_of_list_ascii (map byte_of_code bytes).

End utf8.

(** [string(p)] for a piece [p]: [Piece] is an integer type, so the
    conversion is that of a code point. *)
Definition piece_string (p : Piece) : string := utf8.encode (piece_code p).

(** ** Rendering and parsing boards *)

Module BoardText.

(** [[
    func (a Board) String() (s string) {
      s = "\n"
      for row := 2; row < 10; row++ {
        for col := 1; col < 9; col++ { s = s + string(a[row*10+col]) }
        s = s + "\n"
      }
      return s
    }
    ]]
    The indices 21..98 lie inside the 120-cell array. *)
Definition render_row (a : Board) (s : string) (row : nat) : string :=
  (foldl (fun s col =>
            s ++ piece_string (default zero (a !! (row * 10 + col)%nat)))
         s (seq 1 8)
   ++ String newline EmptyString)%string.

Definition String (a : Board) : string :=
  foldl (render_row a) (String newline EmptyString) (seq 2 8).

End BoardText.

(** Control flow of a loop body that may leave the enclosing function. *)
Inductive flow (A R : Type) : Type :=
  | Next (a : A)
  | Return (r : R).
Arguments Next {A R} a.
Arguments Return {A R} r.

Module Fen.

Definition err_rows : string := "FEN should have 8 rows"%string.
Definition err_piece : string := "invalid piece value: "%string.
Definition err_length : string := "invalid row length"%string.

(** [for j := Piece(0); q-j >= '1'; j++ { b[index] = '.'; index++ }]
    [q] and [j] are bytes, so [q-j] and [j++] are taken modulo 256. *)
Fixpoint dots (fuel : nat) (q j : Z) (b : Board) (index : Z)
  : result (Board * Z) :=
  match fuel with
  | O => OutOfFuel
  | S fuel' =>
      if 49 <=? (q - j) mod 256 then
        b' ← board_set b index ".";
        dots fuel' q ((j + 1) mod 256) b' (index + 1)
      else Ok (b, index)
  end.

(** The body of [for _, c := range rows[i]], over the runes of the row. *)
Fixpoint cells (cs : list Z) (b : Board) (index : Z)
  : result (flow (Board * Z) (Board * string)) :=
  match cs with
  | [] => Ok (Next (b, index))
  | c :: cs' =>
      let q := piece_of_code c in
      if (49 <=? piece_code q) && (piece_code q <=? 56) then
        '(b', index') ← dots 256 (piece_code q) 0 b index;
        cells cs' b' index'
      else if (Piece.value q =? 0) && (Piece.value (Piece.Flip q) =? 0) then
        Ok (Return (b, (err_piece ++ utf8.encode c)%string))
      else
        b' ← board_set b index q;
        cells cs' b' (index + 1)
  end.

(** The loop [for i := 0; i < 8; i++] over the rows still to read. *)
Fixpoint rows_loop (rows : list string) (i : Z) (b : Board)
  : result (flow Board (Board * string)) :=
  match rows with
  | [] => Ok (Next b)
  | row :: rows' =>
      r ← cells (utf8.runes row) b (i * 10 + 21);
      match r with
      | Return e => Ok (Return e)
      | Next (b', index) =>
          if negb (Z.rem index 10 =? 9) then Ok (Return (b', err_length))
          else rows_loop rows' (i + 1) b'
      end
  end.

(** [func FEN(fen string) (b Board, err error)]: both results are
    returned, the error as [Some msg] or [None] for [nil]. *)
Definition FEN (fen : string) : result (Board * option string) :=
  let parts := strings.Split fen " " in
  let rows := strings.Split (hd EmptyString parts) "/" in
  if negb (length rows =? 8)%nat then
    Ok (replicate 120 zero, Some err_rows)
  else
    r ← rows_loop rows 0 (replicate 120 " ");
    match r with
    | Return (b, msg) => Ok (b, Some msg)
    | Next b =>
        match parts with
        | _ :: side :: _ =>
            if String.eqb side "b" then Ok (Board.Flip b, None)
            else Ok (b, None)
        | _ => Ok (b, None)
        end
    end.

End Fen.

(** ** Square names and moves *)

Module SquareText.

(** [[
    func (s Square) String() string {
      return string([]byte{" abcdefgh "[s%10], "  87654321  "[s/10]})
    }
    ]]
    [%] and [/] truncate toward zero. *)
Definition String (s : Square) : result string :=
  f ← string_index " abcdefgh "%string (Z.rem s 10);
  r ← string_index "  87654321  "%string (Z.quot s 10);
  Ok (String.String f (String.String r EmptyString)).

End SquareText.

(** [type Move struct { from Square; to Square }] *)
Record Move : Type := mkMove { from : Square; to : Square }.

Global Instance Move_eq_dec : EqDecision Move.
Proof. solve_decision. Defined.

Module MoveText.

(** [func (m Move) String() string { return m.from.String() + m.to.String() }] *)
Definition String (m : Move) : result string :=
  a ← SquareText.String (from m);
  b ← SquareText.String (to m);
  Ok (a ++ b)%string.

End MoveText.

(** [sort.Strings]: the increasing byte-wise lexicographic arrangement of
    the list (unique, since equal strings are indistinguishable). *)
Module sort.

Fixpoint insert (s : string) (l : list string) : list string :=
  match l with
  | [] => [s]
  | x :: l' => if String.leb s x then s :: l else x :: insert s l'
  end.

Definition Strings (l : list string) : list string :=
  foldr insert [] l.

End sort.
(** ** Positions *)

(** [[
    type Position struct {
      board Board; score int; wc [2]bool; bc [2]bool; ep Square; kp Square
    }
    ]] *)
Record Position : Type := mkPosition {
  board : Board;
  score : Z;
  wc : bool * bool;
  bc : bool * bool;
  ep : Square;
  kp : Square
}.

Global Instance Position_eq_dec : EqDecision Position.
Proof. solve_decision. Defined.

Global Instance Position_countable : Countable Position.
Proof.
  refine (inj_countable'
    (fun p => (board p, score p, wc p, bc p, ep p, kp p))
    (fun t => let '(b, s, w, c, e, k) := t in mkPosition b s w c e k) _).
  by intros [].
Defined.

(** [Position{board: b}]: every other field has its zero value. *)
Definition initial (b : Board) : Position :=
  mkPosition b 0 (false, false) (false, false) 0 0.

(** Move direction constants: [const N, E, S, W = -10, 1, 10, -1] *)
Module Dir.
Definition N : Z := -10.
Definition E : Z := 1.
Definition S : Z := 10.
Definition W : Z := -1.
End Dir.

(** The piece-square tables of [Position.value], one row of the padded
    grid per line. *)
Definition pst (p : Piece) : list Z :=
  match p with
  | "P" =>
      [
       0; 0; 0; 0; 0; 0; 0; 0; 0; 0;
       0; 0; 0; 0; 0; 0; 0; 0; 0; 0;
       0; 0; 0; 0; 0; 0; 0; 0; 0; 0;
       0; 178; 183; 186; 173; 202; 182; 185; 190; 0;
       0; 107; 129; 121; 144; 140; 131; 144; 107; 0;
       0; 83; 116; 98; 115; 114; 0; 115; 87; 0;
       0; 74; 103; 110; 109; 106; 101; 0; 77; 0;
       0; 78; 109; 105; 89; 90; 98; 103; 81; 0;
       0; 69; 108; 93; 63; 64; 86; 103; 69; 0;
       0; 0; 0; 0; 0; 0; 0; 0; 0; 0;
       0; 0; 0; 0; 0; 0; 0; 0; 0; 0;
       0; 0; 0; 0; 0; 0; 0; 0; 0; 0
      ]
  | "N" =>
      [
       0; 0; 0; 0; 0; 0; 0; 0; 0; 0;
       0; 0; 0; 0; 0; 0; 0; 0; 0; 0;
       0; 214; 227; 205; 205; 270; 225; 222; 210; 0;
       0; 277; 274; 380; 244; 284; 342; 276; 266; 0;
       0; 290; 347; 281; 354; 353; 307; 342; 278; 0;
       0; 304; 304; 325; 317; 313; 321; 305; 297; 0;
       0; 279; 285; 311; 301; 302; 315; 282; 0; 0;
       0; 262; 290; 293; 302; 298; 295; 291; 266; 0;
       0; 257; 265; 282; 0; 282; 0; 257; 260; 0;
       0; 206; 257; 254; 256; 261; 245; 258; 211; 0;
       0; 0; 0; 0; 0; 0; 0; 0; 0; 0;
       0; 0; 0; 0; 0; 0; 0; 0; 0; 0
      ]
  | "B" =>
      [
       0; 0; 0; 0; 0; 0; 0; 0; 0; 0;
       0; 0; 0; 0; 0; 0; 0; 0; 0; 0;
       0; 261; 242; 238; 244; 297; 213; 283; 270; 0;
       0; 309; 340; 355; 278; 281; 351; 322; 298; 0;
       0; 311; 359; 288; 361; 372; 310; 348; 306; 0;
       0; 345; 337; 340; 354; 346; 345; 335; 330; 0;
       0; 333; 330; 337; 343; 337; 336; 0; 327; 0;
       0; 334; 345; 344; 335; 328; 345; 340; 335; 0;
       0; 339; 340; 331; 326; 327; 326; 340; 336; 0;
       0; 313; 322; 305; 308; 306; 305; 310; 310; 0;
       0; 0; 0; 0; 0; 0; 0; 0; 0; 0;
       0; 0; 0; 0; 0; 0; 0; 0; 0; 0
      ]
  | "R" =>
      [
       0; 0; 0; 0; 0; 0; 0; 0; 0; 0;
       0; 0; 0; 0; 0; 0; 0; 0; 0; 0;
       0; 514; 508; 512; 483; 516; 512; 535; 529; 0;
       0; 534; 508; 535; 546; 534; 541; 513; 539; 0;
       0; 498; 514; 507; 512; 524; 506; 504; 494; 0;
       0; 0; 484; 495; 492; 497; 475; 470; 473; 0;
       0; 451; 444; 463; 458; 466; 450; 433; 449; 0;
       0; 437; 451; 437; 454; 454; 444; 453; 433; 0;
       0; 426; 441; 448; 453; 450; 436; 435; 426; 0;
       0; 449; 455; 461; 484; 477; 461; 448; 447; 0;
       0; 0; 0; 0; 0; 0; 0; 0; 0; 0;
       0; 0; 0; 0; 0; 0; 0; 0; 0; 0
      ]
  | "Q" =>
      [
       0; 0; 0; 0; 0; 0; 0; 0; 0; 0;
       0; 0; 0; 0; 0; 0; 0; 0; 0; 0;
       0; 935; 930; 921; 825; 998; 953; 1017; 955; 0;
       0; 943; 961; 989; 919; 949; 1005; 986; 953; 0;
       0; 927; 972; 961; 989; 1001; 992; 972; 931; 0;
       0; 930; 913; 951; 946; 954; 949; 916; 923; 0;
       0; 915; 914; 927; 924; 928; 919; 909; 907; 0;
       0; 899; 923; 916; 918; 913; 918; 913; 902; 0;
       0; 893; 911; 0; 910; 914; 914; 908; 891; 0;
       0; 890; 899; 898; 916; 898; 893; 895; 887; 0;
       0; 0; 0; 0; 0; 0; 0; 0; 0; 0;
       0; 0; 0; 0; 0; 0; 0; 0; 0; 0
      ]
  | "K" =>
      [
       0; 0; 0; 0; 0; 0; 0; 0; 0; 0;
       0; 0; 0; 0; 0; 0; 0; 0; 0; 0;
       0; 60004; 60054; 60047; 59901; 59901; 60060; 60083; 59938; 0;
       0; 59968; 60010; 60055; 60056; 60056; 60055; 60010; 60003; 0;
       0; 59938; 60012; 59943; 60044; 59933; 60028; 60037; 59969; 0;
       0; 59945; 60050; 60011; 59996; 59981; 60013; 0; 59951; 0;
       0; 59945; 59957; 59948; 59972; 59949; 59953; 59992; 59950; 0;
       0; 59953; 59958; 59957; 59921; 59936; 59968; 59971; 59968; 0;
       0; 59996; 60003; 59986; 59950; 59943; 59982; 60013; 60004; 0;
       0; 60017; 60030; 59997; 59986; 60006; 59999; 60040; 60018; 0;
       0; 0; 0; 0; 0; 0; 0; 0; 0; 0;
       0; 0; 0; 0; 0; 0; 0; 0; 0; 0
      ]
  | _ => replicate 120 0
  end.

(** [pst[p][j]] with the bounds check of the 120-element array. *)
Definition pst_get (p : Piece) (j : Z) : result Z :=
  if (0 <=? j) && (j <? 120) then
    match pst p !! Z.to_nat j with
    | Some v => Ok v
    | None => Panic
    end
  else Panic.

Module Position.

(** [[
    func (pos Position) Flip() Position {
      np := Position{score: -pos.score,
                     wc: [2]bool{pos.bc[0], pos.bc[1]},
                     bc: [2]bool{pos.wc[0], pos.wc[1]},
                     ep: pos.ep.Flip(), kp: pos.kp.Flip()}
      np.board = pos.board.Flip()
      return np
    }
    ]] *)
Definition Flip (pos : Position) : Position :=
  {| board := Board.Flip (board pos);
     score := Int.neg (score pos);
     wc := (fst (bc pos), snd (bc pos));
     bc := (fst (wc pos), snd (wc pos));
     ep := Square.Flip (ep pos);
     kp := Square.Flip (kp pos) |}.

(** The direction table of [Moves]. *)
Definition directions (p : Piece) : list Z :=
  match p with
  | "P" => [Dir.N; Dir.N + Dir.N; Dir.N + Dir.W; Dir.N + Dir.E]
  | "N" => [Dir.N + Dir.N + Dir.E; Dir.E + Dir.N + Dir.E;
            Dir.E + Dir.S + Dir.E; Dir.S + Dir.S + Dir.E;
            Dir.S + Dir.S + Dir.W; Dir.W + Dir.S + Dir.W;
            Dir.W + Dir.N + Dir.W; Dir.N + Dir.N + Dir.W]
  | "B" => [Dir.N + Dir.E; Dir.S + Dir.E; Dir.S + Dir.W; Dir.N + Dir.W]
  | "R" => [Dir.N; Dir.E; Dir.S; Dir.W]
  | "Q" => [Dir.N; Dir.E; Dir.S; Dir.W;
            Dir.N + Dir.E; Dir.S + Dir.E; Dir.S + Dir.W; Dir.N + Dir.W]
  | "K" => [Dir.N; Dir.E; Dir.S; Dir.W;
            Dir.N + Dir.E; Dir.S + Dir.E; Dir.S + Dir.W; Dir.N + Dir.W]
  | _ => []
  end.

(** The three pawn tests of the inner loop; [true] stands for [break].
    [pos.board[i+N]] is read only when [d == N+N] and [i >= A1+N]. *)
Definition pawn_break (pos : Position) (i d j : Z) (q : Piece) : result bool :=
  if ((d =? Dir.N) || (d =? Dir.N + Dir.N)) && negb (piece_eqb q ".") then Ok true
  else
    two ← (if d =? Dir.N + Dir.N then
             if i <? A1 + Dir.N then Ok true
             else r ← board_get (board pos) (i + Dir.N); Ok (negb (piece_eqb r "."))
           else Ok false);
    if two : bool then Ok true
    else
      Ok (((d =? Dir.N + Dir.W) || (d =? Dir.N + Dir.E)) && piece_eqb q "." &&
          (negb (j =? ep pos) && negb (j =? kp pos) &&
           negb (j =? Int.sub (kp pos) 1) && negb (j =? Int.add (kp pos) 1))).

(** [if i == A1 && pos.board[j+E] == 'K' && pos.wc[0] { append king move }]
    and its mirror for [H1]; the board is read only for the rook's
    corner. *)
Definition castle_a (pos : Position) (i j : Z) (moves : list Move)
  : result (list Move) :=
  if i =? A1 then
    r ← board_get (board pos) (j + Dir.E);
    if piece_eqb r "K" && fst (wc pos)
    then Ok (moves ++ [mkMove (j + Dir.E) (j + Dir.W)])
    else Ok moves
  else Ok moves.

Definition castle_h (pos : Position) (i j : Z) (moves : list Move)
  : result (list Move) :=
  if i =? H1 then
    r ← board_get (board pos) (j + Dir.W);
    if piece_eqb r "K" && snd (wc pos)
    then Ok (moves ++ [mkMove (j + Dir.W) (j + Dir.E)])
    else Ok moves
  else Ok moves.

(** [for j := i + d; ; j = j + d { ... }]: one ray of piece [p] standing
    on [i], with [moves] the slice built so far. *)
Fixpoint ray (fuel : nat) (pos : Position) (i : Z) (p : Piece) (d j : Z)
    (moves : list Move) : result (list Move) :=
  match fuel with
  | O => OutOfFuel
  | S fuel' =>
      q ← board_get (board pos) j;
      if piece_eqb q " " || (negb (piece_eqb q ".") && Piece.ours q) then Ok moves
      else
        brk ← (if piece_eqb p "P" then pawn_break pos i d j q else Ok false);
        if brk : bool then Ok moves
        else
          let moves := moves ++ [mkMove i j] in
          if piece_eqb p "P" || piece_eqb p "N" || piece_eqb p "K" ||
             (negb (piece_eqb q " ") && negb (piece_eqb q ".") &&
              negb (Piece.ours q))
          then Ok moves
          else
            moves ← castle_a pos i j moves;
            moves ← castle_h pos i j moves;
            ray fuel' pos i p d (j + d) moves
  end.

(** A ray changes [j] by a non-zero step and reads the board at every
    step, so it ends or panics within 120 steps. *)
Definition ray_fuel : nat := 120.

(** [for _, d := range directions[p]] *)
Fixpoint rays (pos : Position) (i : Z) (p : Piece) (ds : list Z)
    (moves : list Move) : result (list Move) :=
  match ds with
  | [] => Ok moves
  | d :: ds' =>
      moves' ← ray ray_fuel pos i p d (i + d) moves;
      rays pos i p ds' moves'
  end.

(** [for index, p := range pos.board], over the cells not yet visited. *)
Fixpoint squares (pos : Position) (cells : list Piece) (index : Z)
    (moves : list Move) : result (list Move) :=
  match cells with
  | [] => Ok moves
  | p :: cells' =>
      if negb (Piece.ours p) then squares pos cells' (index + 1) moves
      else
        moves' ← rays pos index p (directions p) moves;
        squares pos cells' (index + 1) moves'
  end.

(** [func (pos Position) Moves() (moves []Move)] *)
Definition Moves (pos : Position) : result (list Move) :=
  squares pos (board pos) 0 [].

(** [func (pos Position) value(m Move) int] *)
Definition value (pos : Position) (m : Move) : result Z :=
  let i := from m in
  let j := to m in
  p ← board_get (board pos) i;
  q ← board_get (board pos) j;
  pj ← pst_get p j;
  pi ← pst_get p i;
  let score := Int.sub pj pi in
  score ← (if negb (piece_eqb q ".") && negb (piece_eqb q " ") &&
              negb (Piece.ours q)
           then v ← pst_get (Piece.Flip q) (Square.Flip j); Ok (Int.add score v)
           else Ok score);
  score ← (if Int.abs (Int.sub j (kp pos)) <? 2
           then v ← pst_get "K" (Square.Flip j); Ok (Int.add score v)
           else Ok score);
  score ← (if piece_eqb p "K" && (Int.abs (Int.sub i j) =? 2) then
             v ← pst_get "R" (Z.quot (Int.add i j) 2);
             let score := Int.add score v in
             if j <? i then v ← pst_get "R" A1; Ok (Int.sub score v)
             else v ← pst_get "R" H1; Ok (Int.sub score v)
           else Ok score);
  if piece_eqb p "P" then
    score ← (if (A8 <=? j) && (j <=? H8) then
               vq ← pst_get "Q" j;
               vp ← pst_get "P" j;
               Ok (Int.add score (Int.sub vq vp))
             else Ok score);
    if j =? ep pos then
      v ← pst_get "P" (Square.Flip (Int.add j Dir.S)); Ok (Int.add score v)
    else Ok score
  else Ok score.

Definition with_board (np : Position) (b : Board) : Position :=
  mkPosition b (score np) (wc np) (bc np) (ep np) (kp np).

(** [if i == A1 { np.wc[0] = false }] and the three tests after it. *)
Definition rights_step (np : Position) (i j : Z) : Position :=
  let np := if i =? A1
            then mkPosition (board np) (score np) (false, snd (wc np)) (bc np) (ep np) (kp np)
            else np in
  let np := if i =? H1
            then mkPosition (board np) (score np) (fst (wc np), false) (bc np) (ep np) (kp np)
            else np in
  let np := if j =? A8
            then mkPosition (board np) (score np) (wc np) (fst (bc np), false) (ep np) (kp np)
            else np in
  if j =? H8
  then mkPosition (board np) (score np) (wc np) (false, snd (bc np)) (ep np) (kp np)
  else np.

(** [[
    if p == 'K' {
      np.wc[0], np.wc[1] = false, false
      if abs(int(j-i)) == 2 {
        if j < i { np.board[H1] = '.' } else { np.board[A1] = '.' }
        np.board[(i+j)/2] = 'R'
      }
    }
    ]] *)
Definition king_step (np : Position) (p : Piece) (i j : Z) : result Position :=
  if piece_eqb p "K" then
    let np := mkPosition (board np) (score np) (false, false) (bc np) (ep np) (kp np) in
    if Int.abs (Int.sub j i) =? 2 then
      b ← (if j <? i then board_set (board np) H1 "."
           else board_set (board np) A1 ".");
      b ← board_set b (Z.quot (Int.add i j) 2) "R";
      Ok (with_board np b)
    else Ok np
  else Ok np.

(** [[
    if p == 'P' {
      if A8 <= j && j <= H8 { np.board[j] = 'Q' }   // Pawn promotion
      if j-i == 2*N { np.ep = i + N }               // First pawn move
      if j == pos.ep { np.board[j+S] = '.' }        // En-passant capture
    }
    ]] *)
Definition pawn_step (pos np : Position) (p : Piece) (i j : Z) : result Position :=
  if piece_eqb p "P" then
    np ← (if (A8 <=? j) && (j <=? H8) then
            b ← board_set (board np) j "Q"; Ok (with_board np b)
          else Ok np);
    let np := if Int.sub j i =? Int.mul 2 Dir.N
              then mkPosition (board np) (score np) (wc np) (bc np)
                              (Int.add i Dir.N) (kp np)
              else np in
    if j =? ep pos then
      b ← board_set (board np) (Int.add j Dir.S) "."; Ok (with_board np b)
    else Ok np
  else Ok np.

(** The position [np] of [Move] just before [return np.Flip()]:
    [[
    i, j, p := m.from, m.to, pos.board[m.from]
    np = pos
    np.ep = 0
    np.kp = 0
    np.score = pos.score + pos.value(m)
    np.board[m.to] = pos.board[m.from]
    np.board[m.from] = '.'
    ]]
    followed by the castling-rights, king and pawn steps. *)
Definition Move_np (pos : Position) (m : Move) : result Position :=
  let i := from m in
  let j := to m in
  p ← board_get (board pos) i;
  v ← value pos m;
  let np := mkPosition (board pos) (Int.add (score pos) v) (wc pos) (bc pos) 0 0 in
  src ← board_get (board pos) i;
  b ← board_set (board np) j src;
  b ← board_set b i ".";
  let np := rights_step (with_board np b) i j in
  np ← king_step np p i j;
  pawn_step pos np p i j.

(** [func (pos Position) Move(m Move) (np Position)] *)
Definition Move (pos : Position) (m : Move) : result Position :=
  np ← Move_np pos m; Ok (Flip np).

End Position.
(** ** The search engine *)

(** [MateValue = Piece('K').value() + 10*Piece('Q').value()] *)
Definition MateValue : Z := Piece.value "K" + 10 * Piece.value "Q".
Definition MaxTableSize : Z := 10000000.
Definition EvalRoughness : Z := 13.

(** [type entry struct { depth int; score int; gamma int; move Move }] *)
Module Entry.
Record t : Type := mk { depth : Z; score : Z; gamma : Z; move : Move }.
(** The zero value, which a map read yields for a missing key. *)
Definition zero : t := mk 0 0 0 (mkMove 0 0).
End Entry.

(** [type Searcher struct { tp map[Position]entry; nodes int }] *)
Record Searcher : Type := mkSearcher {
  tp : gmap Position Entry.t;
  nodes : Z
}.

Definition new_searcher : Searcher := mkSearcher ∅ 0.

Module Searcher.

(** The cache probe of [bound]: the stored score lies on the same side of
    the requested [gamma] as of the stored one, at sufficient depth. *)
Definition probe (ok : bool) (e : Entry.t) (gamma depth : Z) : bool :=
  ok && (depth <=? Entry.depth e) &&
  (((Entry.score e <? Entry.gamma e) && (Entry.score e <? gamma)) ||
   ((Entry.gamma e <=? Entry.score e) && (gamma <=? Entry.score e))).

(** The probe on the table of a searcher: [e, ok := s.tp[pos]] followed
    by the test of the first [if] of [bound]. *)
Definition hit (s : Searcher) (pos : Position) (gamma depth : Z) : bool :=
  probe (bool_decide (is_Some (tp s !! pos)))
        (default Entry.zero (tp s !! pos)) gamma depth.

(** [s.tp[pos] = entry{...}; if len(s.tp) > MaxTableSize { s.tp = map[Position]entry{} }] *)
Definition store (s : Searcher) (pos : Position) (e : Entry.t) : Searcher :=
  let tp' := <[pos := e]> (tp s) in
  if MaxTableSize <? Z.of_nat (size tp')
  then mkSearcher ∅ (nodes s)
  else mkSearcher tp' (nodes s).

(** The move loop of [bound]; [rec] is the recursive call [s.bound]. *)
Fixpoint loop (rec : Searcher -> Position -> Z -> Z -> result (Z * Searcher))
    (pos : Position) (gamma depth : Z)
    (ms : list Move) (s : Searcher) (bestScore : Z) (bestMove : Move)
  : result (Z * Move * Searcher) :=
  match ms with
  | [] => Ok (bestScore, bestMove, s)
  | m :: ms' =>
      quiet ← (if depth <=? 0
               then v ← Position.value pos m; Ok (v <? 150)
               else Ok false);
      if quiet : bool then Ok (bestScore, bestMove, s)
      else
        np ← Position.Move pos m;
        '(r, s) ← rec s np (Int.sub 1 gamma) (Int.sub depth 1);
        let score := Int.neg r in
        let '(bestScore, bestMove) :=
          if bestScore <? score then (score, m) else (bestScore, bestMove) in
        if gamma <=? score then Ok (bestScore, bestMove, s)
        else loop rec pos gamma depth ms' s bestScore bestMove
  end.

(** [func (s *Searcher) bound(pos Position, gamma, depth int) (score int)]:
    the searcher is threaded through, the fuel bounds the recursion
    depth. *)
Fixpoint bound (fuel : nat) (s : Searcher) (pos : Position) (gamma depth : Z)
  : result (Z * Searcher) :=
  match fuel with
  | O => OutOfFuel
  | S fuel' =>
      let s := mkSearcher (tp s) (Int.add (nodes s) 1) in
      let ok := bool_decide (is_Some (tp s !! pos)) in
      let e := default Entry.zero (tp s !! pos) in
      if probe ok e gamma depth then Ok (Entry.score e, s)
      else if MateValue <=? Int.abs (score pos) then Ok (score pos, s)
      else
        '(nullScore, s) ←
          (if 0 <? depth then
             '(r, s') ← bound fuel' s (Position.Flip pos)
                                (Int.sub 1 gamma) (Int.sub depth 3);
             Ok (Int.neg r, s')
           else Ok (score pos, s));
        if gamma <=? nullScore then Ok (nullScore, s)
        else
          ms ← Position.Moves pos;
          '(bestScore, bestMove, s) ←
            loop (bound fuel') pos gamma depth ms s (-3 * MateValue) (mkMove 0 0);
          if (depth <=? 0) && (bestScore <? nullScore) then Ok (nullScore, s)
          else
            (* Stalemate check *)
            let bestScore :=
              if (0 <? depth) && (bestScore <=? - MateValue) &&
                 (- MateValue <? nullScore)
              then 0 else bestScore in
            let s :=
              if negb ok || ((Entry.depth e <=? depth) && (gamma <=? bestScore))
              then store s pos (Entry.mk depth bestScore gamma bestMove)
              else s in
            Ok (bestScore, s)
  end.

(** The inner loop of [Search]: [for lower < upper-EvalRoughness]. *)
Fixpoint narrow (fuel bfuel : nat) (s : Searcher) (pos : Position)
    (depth lower upper score : Z) : result (Z * Searcher) :=
  match fuel with
  | O => OutOfFuel
  | S fuel' =>
      if lower <? Int.sub upper EvalRoughness then
        let gamma := Z.quot (Int.add (Int.add lower upper) 1) 2 in
        '(score, s) ← bound bfuel s pos gamma depth;
        let lower := if gamma <=? score then score else lower in
        let upper := if score <? gamma then score else upper in
        narrow fuel' bfuel s pos depth lower upper score
      else Ok (score, s)
  end.

(** The outer loop of [Search]: [for depth := 1; depth < 99; depth++],
    with [n] the number of depths still allowed. *)
Fixpoint deepen (n fuel bfuel : nat) (s : Searcher) (pos : Position)
    (maxNodes depth : Z) : result Searcher :=
  match n with
  | O => Ok s
  | S n' =>
      '(score, s) ← narrow fuel bfuel s pos depth
                          (-3 * MateValue) (3 * MateValue) 0;
      if (MateValue <=? Int.abs score) || (maxNodes <=? nodes s) then Ok s
      else deepen n' fuel bfuel s pos maxNodes (depth + 1)
  end.

(** [func (s *Searcher) Search(pos Position, maxNodes int) (m Move)] *)
Definition Search (fuel bfuel : nat) (s : Searcher) (pos : Position)
    (maxNodes : Z) : result (Move * Searcher) :=
  let s := mkSearcher (tp s) 0 in
  s ← deepen 98 fuel bfuel s pos maxNodes 1;
  Ok (Entry.move (default Entry.zero (tp s !! pos)), s).

End Searcher.

(** ** The reference value of the specification

    The specification measures [bound] against the true minimax score of
    a snapshot at a depth.  Following its words, this is the plain
    depth-limited negamax value: the snapshot's score at depth 0, and
    otherwise the best, over the generated moves, of the negated value of
    the successor one level lower (the lowest score of the search,
    [-3 * MateValue], when there is no move). *)
Module Reference.

Fixpoint best_of (rec : Position -> result Z) (pos : Position)
    (ms : list Move) (best : Z) : result Z :=
  match ms with
  | [] => Ok best
  | m :: ms' =>
      np ← Position.Move pos m;
      v ← rec np;
      best_of rec pos ms' (Z.max best (- v))
  end.

Fixpoint minimax (d : nat) (pos : Position) : result Z :=
  match d with
  | O => Ok (score pos)
  | S d' =>
      ms ← Position.Moves pos;
      best_of (minimax d') pos ms (-3 * MateValue)
  end.

(** The null-window contract of a returned value [r] against the true
    score [t] for the threshold [gamma]: [r] is on the same side of
    [gamma] as [t], and it is the true score when it is neither strictly
    below nor strictly above it. *)
Definition null_window_contract (r t gamma : Z) : Prop :=
  (gamma <= t -> gamma <= r) /\
  (t < gamma -> r < gamma) /\
  (~ r < t -> ~ t < r -> r = t).

End Reference.

(** ** Structural validity of boards *)

Module Grid.

(** A coordinate of the inner 8x8 region: ranks 2..9, files 1..8. *)
Definition inner (j : Z) : bool :=
  (2 <=? j / 10) && (j / 10 <=? 9) && (1 <=? j mod 10) && (j mod 10 <=? 8).

(** The padding invariant at one cell. *)
Definition cell_ok (j : Z) (p : Piece) : bool :=
  if inner j then Piece.playable p else piece_eqb p " ".

(** The padding invariant: 120 cells, the off-board sentinel outside the
    inner region, a playing piece or the empty sentinel inside. *)
Definition padded (a : Board) : Prop :=
  length a = 120%nat /\
  forall (j : nat) p, a !! j = Some p -> cell_ok (Z.of_nat j) p = true.

Definition paddedb (a : Board) : bool :=
  (length a =? 120)%nat &&
  forallb (fun '(j, p) => cell_ok (Z.of_nat j) p) (imap (fun j p => (j, p)) a).

End Grid.

(** The fuel that remains covers the squares that remain in the
    direction of travel. *)
Definition fuel_covers (fuel : nat) (d j : Z) : Prop :=
  (1 <= fuel)%nat /\
  (0 <= j < 120 ->
   (0 < d /\ 120 - j < Z.of_nat fuel) \/ (d < 0 /\ j + 1 < Z.of_nat fuel)).

(** The integer fields of a position are machine integers. *)
Definition ints_ok (pos : Position) : Prop :=
  Int.ok (score pos) /\ Int.ok (ep pos) /\ Int.ok (kp pos).
(** ** The fixtures of the test file *)

Module Tests.

(** [for _, m := range p.moves() { moves = append(moves, m.String()) }] *)
Fixpoint names (ms : list Move) : result (list string) :=
  match ms with
  | [] => Ok []
  | m :: ms' =>
      s ← MoveText.String m;
      l ← names ms';
      Ok (s :: l)
  end.

(** The body of [TestMoves] for one game: the generated moves of the
    position [position{board: b}], named, sorted and joined. *)
Definition sorted_moves (game : string) : result (nat * string) :=
  '(b, _) ← Fen.FEN game;
  ms ← Position.Moves (initial b);
  l ← names ms;
  Ok (length ms, strings.Join (sort.Strings l) " ").

Definition game : string :=
  "r4rk1/ppp2ppp/2n2n2/5P2/2pb4/2N2N2/PPP2PPP/RQ2K2R"%string.

Definition expected : string :=
  "a2a3 a2a4 b1c1 b1d1 b2b3 b2b4 c3a4 c3b5 c3d1 c3d5 c3e2 c3e4 e1d1 e1d2 e1e2 e1f1 f3d2 f3d4 f3e5 f3g1 f3g5 f3h4 g2g3 g2g4 h1f1 h1g1 h2h3 h2h4"%string.

(** The board that [FEN] returns, or the zero board when it panics. *)
Definition board_of (fen : string) : Board :=
  match Fen.FEN fen with
  | Ok (b, _) => b
  | _ => replicate 120 zero
  end.

(** The malformed strings of [TestFEN]. *)
Definition malformed : list string :=
  [ ""; "hello"; "8/8/8/8/8/8/8/8/8"; "8/8/8/8/8/8/8/9"; "8/8/8/8/8/8/8";
    "8/1p1/8/8/8/8/8/8"; "8/1x7/8/8/8/8/8/8"; "8/1 7/8/8/8/8/8/8";
    "8/1.7/8/8/8/8/8/8" ]%string.

Definition start_fen : string :=
  "rnbqkbnr/pppppppp/8/8/8/8/PPPPPPPP/RNBQKBNR w KQkq - 0 1"%string.

Definition start_text : string :=
  String newline
    ("rnbqkbnr" ++ String newline
    ("pppppppp" ++ String newline
    ("........" ++ String newline
    ("........" ++ String newline
    ("........" ++ String newline
    ("........" ++ String newline
    ("PPPPPPPP" ++ String newline
    ("RNBQKBNR" ++ String newline EmptyString))))))))%string.

(** [FEN] returned an error. *)
Definition fails (fen : string) : bool :=
  match Fen.FEN fen with
  | Ok (_, Some _) => true
  | _ => false
  end.

End Tests.

(** Positions used as concrete inputs. *)
Module Fixtures.

(** The start position of the test file. *)
Definition start : Position := initial (Tests.board_of Tests.start_fen).

(** Both sides may castle on both wings. *)
Definition castle : Position :=
  mkPosition (Tests.board_of "r3k2r/8/8/8/8/8/8/R3K2R"%string)
             0 (true, true) (true, true) 0 0.

(** A pawn on e2 next to an empty d3 that is the king-passant square. *)
Definition passant : Position :=
  mkPosition (Tests.board_of "8/8/8/8/8/8/4P3/8"%string)
             0 (false, false) (false, false) 0 74.

(** Two kings, ours on g8. *)
Definition kings : Position := initial (Tests.board_of "6K1/8/8/8/8/8/8/k7"%string).

(** The position a move leads to, or the position itself when the move
    panics. *)
Definition after (pos : Position) (m : Move) : Position :=
  match Position.Move pos m with
  | Ok np => np
  | _ => pos
  end.

(** The same for the position of [Move] before its final flip. *)
Definition before_flip (pos : Position) (m : Move) : Position :=
  match Position.Move_np pos m with
  | Ok np => np
  | _ => pos
  end.

(** The generated moves, or none when the generator panics. *)
Definition moves_of (pos : Position) : list Move :=
  match Position.Moves pos with
  | Ok ms => ms
  | _ => []
  end.

(** The searcher that [bound] leaves behind, or the one it was given. *)
Definition searcher_of (r : result (Z * Searcher)) (s : Searcher) : Searcher :=
  match r with
  | Ok (_, s') => s'
  | _ => s
  end.

(** The start position after the knight move b1c3. *)
Definition after_knight : Position := after start (mkMove 92 73).

End Fixtures.

(** ** The front end (main.go) *)

Module Main.

(** [[
    func start() Position {
      board, _ := FEN("rnbqkbnr/pppppppp/8/8/8/8/PPPPPPPP/RNBKQBNR")
      return Position{board: board}
    }
    ]]
    The error of [FEN] is dropped. *)
Definition start : result Position :=
  '(b, _) ← Fen.FEN "rnbqkbnr/pppppppp/8/8/8/8/PPPPPPPP/RNBKQBNR"%string;
  Ok (initial b).

(** [[
    sqr := map[string]Square{}
    for i := Square(0); i < 120; i++ { sqr[i.String()] = i }
    ]] *)
Definition sqr_from (squares : list nat) : result (gmap string Square) :=
  foldl (fun acc i =>
           tbl ← acc;
           n ← SquareText.String (Z.of_nat i);
           Ok (<[n := Z.of_nat i]> tbl))
        (Ok ∅) squares.

Definition sqr : result (gmap string Square) := sqr_from (seq 0 120).

(** The table that the loop builds, or the empty one if it panics. *)
Definition sqr_table : gmap string Square :=
  match sqr with
  | Ok tbl => tbl
  | _ => ∅
  end.

(** [s[lo:hi]] on a string, with Go's bounds check. *)
Definition slice (s : string) (lo hi : nat) : result string :=
  if (lo <=? hi)%nat && (hi <=? String.length s)%nat
  then Ok (substring lo (hi - lo) s)
  else Panic.

(** [m := Move{from: sqr[s[0:2]], to: sqr[s[2:4]]}]; a key that is absent
    reads as the square 0. *)
Definition parse (tbl : gmap string Square) (s : string) : result Move :=
  a ← slice s 0 2;
  b ← slice s 2 4;
  Ok (mkMove (default 0 (tbl !! a)) (default 0 (tbl !! b))).

(** [if i%2 != 0 { m = Move{from: m.from.Flip(), to: m.to.Flip()} }] *)
Definition orient (i : nat) (m : Move) : Move :=
  if negb (i mod 2 =? 0)%nat
  then mkMove (Square.Flip (from m)) (Square.Flip (to m))
  else m.

(** The loop of [position startpos moves ...]:
    [for i, s := range moves { ...; pos = pos.Move(m) }]. *)
Fixpoint play (tbl : gmap string Square) (pos : Position) (i : nat)
    (moves : list string) : result Position :=
  match moves with
  | [] => Ok pos
  | s :: rest =>
      m ← parse tbl s;
      np ← Position.Move pos (orient i m);
      play tbl np (S i) rest
  end.

End Main.

(** ** Shapes of generated moves *)

(** A move of the piece on [i] to a square that holds neither the
    off-board sentinel nor an own piece. *)
Definition plain_move (pos : Position) (i : Z) (m : Move) : Prop :=
  from m = i /\
  exists q, board_get (board pos) (to m) = Ok q /\
            q <> " " /\ (q = "." \/ Piece.ours q = false).

(** A king's move of two squares, to the west under the first castling
    flag or to the east under the second. *)
Definition castling_move (pos : Position) (m : Move) : Prop :=
  board_get (board pos) (from m) = Ok "K" /\
  ((to m = from m - 2 /\ fst (wc pos) = true) \/
   (to m = from m + 2 /\ snd (wc pos) = true)).

(** The pieces that make one step per direction. *)
Definition crawler (p : Piece) : bool :=
  piece_eqb p "P" || piece_eqb p "N" || piece_eqb p "K".

(** No castling flag is set, for either side. *)
Definition no_castling (pos : Position) : Prop :=
  wc pos = (false, false) /\ bc pos = (false, false).

(** The invariant of the positions that the program builds:
    [Position{board: b}] with a padded board, and what [Move] and
    [Flip] make of them. *)
Definition sound (pos : Position) : Prop :=
  Grid.padded (board pos) /\ no_castling pos.

(** The text of one row of the inner region, one byte per cell, and of
    the whole board: a newline, then the eight rows, each followed by a
    newline. *)
Definition row_text (a : Board) (row : nat) : string :=
  string_of_list_ascii
    (map (fun col => default zero (a !! (row * 10 + col)%nat)) (seq 1 8)).

Definition board_text (a : Board) : string :=
  String newline
    (foldr (fun row s => (row_text a row ++ String newline s)%string)
           EmptyString (seq 2 8)).
(** ** Flip is an involution *)

Lemma wrap_id z : Int.ok z -> Int.wrap z = z.
Proof.
  unfold Int.ok, Int.wrap, Int.min_int, Int.max_int. intros H.
  rewrite Z.mod_small; lia.
Qed.

Lemma wrap_ok z : Int.ok (Int.wrap z).
Proof.
  unfold Int.ok, Int.wrap, Int.min_int, Int.max_int.
  pose proof (Z.mod_pos_bound (z + 2 ^ 63) (2 ^ 64)). lia.
Qed.

Lemma wrap_mod z : Int.wrap z mod 2 ^ 64 = z mod 2 ^ 64.
Proof.
  unfold Int.wrap.
  rewrite Zminus_mod, Zmod_mod, <- Zminus_mod.
  f_equal. lia.
Qed.

Lemma wrap_eq_mod x y :
  x mod 2 ^ 64 = y mod 2 ^ 64 -> Int.wrap x = Int.wrap y.
Proof.
  intros H. unfold Int.wrap.
  rewrite (Zplus_mod x), (Zplus_mod y), H. reflexivity.
Qed.

Lemma Piece_Flip_involutive p :
  Piece.valid p = true -> Piece.Flip (Piece.Flip p) = p.
Proof.
  destruct p as [[] [] [] [] [] [] [] []]; cbn; intros H;
    first [reflexivity | discriminate H].
Qed.

Lemma Piece_Flip_valid p :
  Piece.valid p = true -> Piece.valid (Piece.Flip p) = true.
Proof.
  destruct p as [[] [] [] [] [] [] [] []]; cbn; intros H;
    first [reflexivity | discriminate H].
Qed.

(** The loop of [Board.Flip] written as its effect on each cell. *)
Lemma Board_Flip_fold_lookup (f : nat -> Piece) (n k : nat) (base : list Piece) i :
  length base = n ->
  (k <= n)%nat ->
  foldr (fun i b => <[i := f i]> b) base (seq (n - k) k) !! i =
    if decide (n - k <= i < n)%nat then Some (f i) else base !! i.
Proof.
  intros Hlen. revert i. induction k as [|k IH]; intros i Hk.
  - cbn. rewrite decide_False by lia. reflexivity.
  - replace (n - S k)%nat with (n - k - 1)%nat by lia.
    cbn [seq foldr].
    replace (S (n - k - 1)) with (n - k)%nat by lia.
    assert (Hl : forall l, length (foldr (fun i b => <[i := f i]> b) base l) = n).
    { intros l. induction l as [|x l IHl]; cbn; [done|].
      by rewrite length_insert. }
    destruct (decide (i = n - k - 1)%nat) as [->|Hne].
    + rewrite list_lookup_insert_eq by (rewrite Hl; lia).
      rewrite decide_True by lia. reflexivity.
    + rewrite list_lookup_insert_ne by congruence.
      rewrite IH by lia.
      destruct (decide (n - k <= i < n)%nat).
      * rewrite decide_True by lia. reflexivity.
      * rewrite decide_False by lia. reflexivity.
Qed.

Lemma Board_Flip_lookup (a : Board) (i : nat) :
  Board.Flip a !! i =
    if decide (i < length a)%nat
    then Some (Piece.Flip (default zero (a !! (length a - i - 1)%nat)))
    else None.
Proof.
  unfold Board.Flip.
  pose proof (Board_Flip_fold_lookup
    (fun i => Piece.Flip (default zero (a !! (length a - i - 1)%nat)))
    (length a) (length a) (replicate (length a) zero) i) as H.
  rewrite Nat.sub_diag in H. cbv beta in H.
  rewrite H; [|by rewrite length_replicate|lia].
  destruct (decide (i < length a)%nat).
  - rewrite decide_True by lia. reflexivity.
  - rewrite decide_False by lia.
    apply lookup_ge_None_2. rewrite length_replicate. lia.
Qed.

Lemma Board_Flip_length (a : Board) : length (Board.Flip a) = length a.
Proof.
  unfold Board.Flip.
  induction (seq 0 (length a)) as [|x l IH]; cbn.
  - by rewrite length_replicate.
  - by rewrite length_insert.
Qed.

Lemma Board_Flip_involutive (a : Board) :
  Forall (fun p => Piece.valid p = true) a ->
  Board.Flip (Board.Flip a) = a.
Proof.
  intros Hv. apply list_eq. intros i.
  rewrite Board_Flip_lookup, Board_Flip_length.
  destruct (decide (i < length a)%nat) as [Hi|Hi].
  - rewrite Board_Flip_lookup.
    rewrite decide_True by lia.
    replace (length a - (length a - i - 1) - 1)%nat with i by lia.
    destruct (a !! i) as [p|] eqn:Hp.
    + cbn. f_equal. apply Piece_Flip_involutive.
      rewrite Forall_forall in Hv. apply Hv.
      apply list_elem_of_lookup. eauto.
    + apply lookup_ge_None_1 in Hp. lia.
  - symmetry. apply lookup_ge_None_2. lia.
Qed.

Lemma Board_Flip_wf (a : Board) : Board.wf a -> Board.wf (Board.Flip a).
Proof.
  intros [Hlen Hv]. split.
  - by rewrite Board_Flip_length.
  - apply Forall_forall. intros p Hp.
    apply list_elem_of_lookup in Hp as [i Hi].
    rewrite Board_Flip_lookup in Hi.
    destruct (decide (i < length a)%nat) as [Hlt|]; [|discriminate].
    injection Hi as <-.
    destruct (a !! (length a - i - 1)%nat) as [q|] eqn:Hq.
    + cbn. apply Piece_Flip_valid.
      rewrite Forall_forall in Hv. apply Hv.
      apply list_elem_of_lookup. eauto.
    + apply lookup_ge_None_1 in Hq. lia.
Qed.

Lemma Square_Flip_involutive (c : Square) :
  Int.ok c -> Square.Flip (Square.Flip c) = c.
Proof.
  intros Hc. unfold Square.Flip, Int.sub.
  rewrite <- (wrap_id c) at 2 by exact Hc.
  apply wrap_eq_mod.
  rewrite Zminus_mod, wrap_mod, <- Zminus_mod.
  f_equal. lia.
Qed.

(** C4. Flipping a board twice gives the board back whenever its 120
    cells hold valid piece codes, and flipping a coordinate of the grid
    twice ([flip c = 119 - c]) gives the coordinate back. *)
Theorem flip_involution (B : Board) (c : Square) :
  Board.wf B ->
  0 <= c < 120 ->
  Board.Flip (Board.Flip B) = B /\
  Square.Flip c = 119 - c /\
  Square.Flip (Square.Flip c) = c.
Proof.
  intros [_ Hv] Hc. split; [|split].
  - by apply Board_Flip_involutive.
  - unfold Square.Flip, Int.sub. apply wrap_id.
    unfold Int.ok, Int.min_int, Int.max_int. lia.
  - apply Square_Flip_involutive.
    unfold Int.ok, Int.min_int, Int.max_int. lia.
Qed.

Lemma start_board_wf : Board.wf (board Fixtures.start).
Proof.
  split; [vm_compute; reflexivity|].
  apply (bool_decide_unpack _). vm_compute. exact I.
Defined.

Lemma flip_involution_witness :
  Board.Flip (Board.Flip (board Fixtures.start)) = board Fixtures.start /\
  Square.Flip 91 = 119 - 91 /\
  Square.Flip (Square.Flip 91) = 91.
Proof.
  apply (flip_involution (board Fixtures.start) 91).
  - exact start_board_wf.
  - lia.
Defined.

(** ** FEN decoding and the golden move list *)

Lemma FEN_start_renders :
  exists b, Fen.FEN Tests.start_fen = Ok (b, None) /\
            BoardText.String b = Tests.start_text.
Proof.
  exists (Tests.board_of Tests.start_fen). split; vm_compute; reflexivity.
Qed.

Lemma FEN_rejects_test_strings :
  forallb Tests.fails Tests.malformed = true.
Proof. vm_compute. reflexivity. Qed.

Lemma FEN_rejects_empty : Fen.FEN EmptyString = Ok (replicate 120 zero, Some Fen.err_rows).
Proof. reflexivity. Qed.

(** A row that overruns the array makes [FEN] panic instead of
    returning an error. *)
Lemma FEN_panics_on_long_last_row :
  Fen.FEN "8/8/8/8/8/8/8/88888"%string = Panic.
Proof. vm_compute. reflexivity. Qed.

(** A rune above 255 is truncated to a byte before it is looked up:
    U+0150 is read as the pawn ['P']. *)
Lemma FEN_truncates_runes :
  let row := string_of_list_ascii
               [byte_of_code 197; byte_of_code 144; "7"] in
  exists b, Fen.FEN (row ++ "/8/8/8/8/8/8/8")%string = Ok (b, None) /\
            b !! 21%nat = Some "P".
Proof.
  intros row. exists (Tests.board_of (row ++ "/8/8/8/8/8/8/8")%string).
  split; vm_compute; reflexivity.
Qed.

(** C7. The start position parses and renders to the exact 8x8 text and
    the nine malformed strings of the test are rejected, but not every
    row of bad length is: on ["882/8/8/8/8/8/8/8"], whose first row spans
    18 files, [FEN] returns a board and no error, with empty-square
    sentinels written over the guard cells 29 and 30. *)
Theorem FEN_accepts_row_of_18 :
  (exists b, Fen.FEN Tests.start_fen = Ok (b, None) /\
             BoardText.String b = Tests.start_text) /\
  forallb Tests.fails Tests.malformed = true /\
  exists b, Fen.FEN "882/8/8/8/8/8/8/8"%string = Ok (b, None) /\
            b !! 29%nat = Some "." /\ b !! 30%nat = Some "." /\
            Grid.paddedb b = false.
Proof.
  split; [exact FEN_start_renders|].
  split; [exact FEN_rejects_test_strings|].
  exists (Tests.board_of "882/8/8/8/8/8/8/8"%string).
  repeat split; vm_compute; reflexivity.
Qed.

(** The sentence of the specification as it stands: the fixture position has exactly 30 moves. *)
Lemma golden_count_is_not_30 :
  ~ (exists ms, Position.Moves (initial (Tests.board_of Tests.game)) = Ok ms /\
                length ms = 30%nat).
Proof.
  intros (ms & Hms & Hlen). vm_compute in Hms.
  injection Hms as <-. discriminate Hlen.
Qed.

(** C2. From the fixture position (all castling flags false, no
    en-passant or king-passant target) [Moves] returns exactly 28 moves,
    and their sorted algebraic names, joined by spaces, are the golden
    reference list of the test. *)
Theorem golden_moves :
  Fen.FEN Tests.game = Ok (Tests.board_of Tests.game, None) /\
  (exists ms, Position.Moves (initial (Tests.board_of Tests.game)) = Ok ms /\
              length ms = 28%nat) /\
  Tests.sorted_moves Tests.game = Ok (28%nat, Tests.expected).
Proof.
  split; [vm_compute; reflexivity|]. split; [|vm_compute; reflexivity].
  destruct (Position.Moves (initial (Tests.board_of Tests.game))) as [ms| |] eqn:E;
    [exists ms; split; [reflexivity|]|vm_compute in E; discriminate E..].
  vm_compute in E. injection E as <-. reflexivity.
Qed.

(** ** Positions: flip, castling, promotion, en passant *)

Lemma neg_involutive z : Int.ok z -> Int.neg (Int.neg z) = z.
Proof.
  intros Hz. unfold Int.neg.
  rewrite <- (wrap_id z) at 2 by exact Hz.
  apply wrap_eq_mod.
  rewrite <- (Z.sub_0_l (Int.wrap _)), Zminus_mod, wrap_mod, <- Zminus_mod.
  f_equal. lia.
Qed.

(** C9. Flipping a snapshot twice restores it: the board (all cells
    valid piece codes), the score negated twice, both pairs of castling
    flags swapped twice, and the en-passant and king-passant coordinates
    reflected through 119 twice. *)
Theorem position_flip_involution (pos : Position) :
  Forall (fun p => Piece.valid p = true) (board pos) ->
  ints_ok pos ->
  Position.Flip (Position.Flip pos) = pos.
Proof.
  intros Hv (Hs & He & Hk).
  destruct pos as [b s [w0 w1] [c0 c1] e k].
  cbn [board score ep kp] in *.
  unfold Position.Flip. cbn [board score wc bc ep kp fst snd].
  rewrite Board_Flip_involutive by exact Hv.
  rewrite neg_involutive by exact Hs.
  rewrite !Square_Flip_involutive by assumption.
  reflexivity.
Qed.

Lemma position_flip_involution_witness :
  Position.Flip (Position.Flip Fixtures.castle) = Fixtures.castle.
Proof.
  apply (position_flip_involution Fixtures.castle).
  - apply (bool_decide_unpack _). vm_compute. exact I.
  - unfold ints_ok, Int.ok, Int.min_int, Int.max_int. cbn. lia.
Defined.

(** Reading and writing cells of a 120-cell board. *)
Lemma board_get_Ok (a : Board) i p :
  board_get a i = Ok p <-> (0 <= i < 120 /\ a !! Z.to_nat i = Some p).
Proof.
  unfold board_get, board_len.
  destruct (0 <=? i) eqn:H0; destruct (i <? 120) eqn:H1; cbn;
    try (split; [discriminate | lia]).
  destruct (a !! Z.to_nat i) as [q|].
  - split; [intros [= ->]; split; [lia | reflexivity] | intros [_ [= ->]]; reflexivity].
  - split; [discriminate | intros [_ [=]]].
Qed.

Lemma board_get_total (a : Board) i :
  length a = 120%nat -> 0 <= i < 120 -> exists p, board_get a i = Ok p.
Proof.
  intros Hl Hi.
  destruct (lookup_lt_is_Some_2 a (Z.to_nat i)) as [p Hp]; [lia|].
  exists p. apply board_get_Ok. auto.
Qed.

Lemma board_set_Ok (a : Board) i p :
  length a = 120%nat -> 0 <= i < 120 ->
  board_set a i p = Ok (<[Z.to_nat i := p]> a).
Proof.
  intros Hl Hi. unfold board_set, board_len. rewrite Hl.
  replace ((0 <=? i) && (i <? 120) && (i <? Z.of_nat 120)) with true;
    [reflexivity|].
  symmetry. rewrite !andb_true_iff.
  repeat split; [apply Z.leb_le | apply Z.ltb_lt..]; lia.
Qed.

Lemma board_set_inv (a b : Board) i p :
  board_set a i p = Ok b ->
  0 <= i < 120 /\ (Z.to_nat i < length a)%nat /\ b = <[Z.to_nat i := p]> a.
Proof.
  unfold board_set, board_len.
  destruct (0 <=? i) eqn:H0; destruct (i <? 120) eqn:H1;
    destruct (i <? Z.of_nat (length a)) eqn:H2; cbn; try discriminate.
  intros [= <-]. repeat split; lia.
Qed.

Lemma pst_length p : length (pst p) = 120%nat.
Proof. destruct p as [[] [] [] [] [] [] [] []]; reflexivity. Qed.

Lemma pst_get_total p j : 0 <= j < 120 -> exists v, pst_get p j = Ok v.
Proof.
  intros Hj. unfold pst_get.
  destruct (0 <=? j) eqn:H0; [|lia]. destruct (j <? 120) eqn:H1; [|lia].
  destruct (lookup_lt_is_Some_2 (pst p) (Z.to_nat j)) as [v Hv].
  { rewrite pst_length. lia. }
  cbn. rewrite Hv. eauto.
Qed.

Lemma pst_get_inv p j v : pst_get p j = Ok v -> 0 <= j < 120.
Proof.
  unfold pst_get.
  destruct (0 <=? j) eqn:H0; destruct (j <? 120) eqn:H1; cbn;
    try discriminate; lia.
Qed.

Lemma small_ok z : -1000 <= z <= 1000 -> Int.ok z.
Proof. unfold Int.ok, Int.min_int, Int.max_int. lia. Qed.

Lemma Square_Flip_small j : 0 <= j < 120 -> Square.Flip j = 119 - j.
Proof.
  intros Hj. unfold Square.Flip, Int.sub. apply wrap_id, small_ok. lia.
Qed.

(** *** Evaluating and applying moves *)

Lemma add_small x y :
  -1000 <= x <= 1000 -> -1000 <= y <= 1000 -> Int.add x y = x + y.
Proof.
  intros Hx Hy. unfold Int.add. apply wrap_id.
  unfold Int.ok, Int.min_int, Int.max_int. lia.
Qed.

Lemma sub_small x y :
  -1000 <= x <= 1000 -> -1000 <= y <= 1000 -> Int.sub x y = x - y.
Proof.
  intros Hx Hy. unfold Int.sub. apply wrap_id.
  unfold Int.ok, Int.min_int, Int.max_int. lia.
Qed.

Ltac pst_side m :=
  unfold A1, H1, Dir.S;
  try pose proof (Z.quot_pos (from m + to m) 2);
  try pose proof (Z.quot_lt_upper_bound (from m + to m) 2 120);
  lia.

Ltac pst_step m :=
  match goal with
  | |- context [pst_get ?p ?j] =>
      let v := fresh "v" in
      let H := fresh "Hv" in
      destruct (pst_get_total p j) as [v H];
      [ solve [pst_side m] | rewrite !H ]
  end.

Ltac split_ifs :=
  repeat (cbn [mbind result_bind];
          match goal with
          | |- context [if ?c then _ else _] => destruct c
          end).

(** [value] does not panic on a move inside the grid whose target leaves
    room for the en-passant victim square [j+S]. *)
Lemma value_total pos m :
  length (board pos) = 120%nat ->
  0 <= from m < 120 ->
  0 <= to m <= 109 ->
  exists v, Position.value pos m = Ok v.
Proof.
  intros Hl Hi Hj. unfold Position.value.
  destruct (board_get_total (board pos) (from m)) as [p Hp]; [done|lia|].
  destruct (board_get_total (board pos) (to m)) as [q Hq]; [done|lia|].
  rewrite Hp, Hq. cbn [mbind result_bind].
  rewrite (Square_Flip_small (to m)) by lia.
  rewrite (add_small (from m) (to m)) by lia.
  rewrite (add_small (to m) Dir.S) by (unfold Dir.S; lia).
  rewrite (Square_Flip_small (to m + Dir.S)) by (unfold Dir.S; lia).
  repeat pst_step m.
  split_ifs; cbn [mbind result_bind]; eauto.
Qed.

Lemma rights_step_board np i j :
  board (Position.rights_step np i j) = board np.
Proof.
  unfold Position.rights_step.
  destruct (i =? A1), (i =? H1), (j =? A8), (j =? H8); reflexivity.
Qed.

Lemma rights_step_ep np i j :
  ep (Position.rights_step np i j) = ep np.
Proof.
  unfold Position.rights_step.
  destruct (i =? A1), (i =? H1), (j =? A8), (j =? H8); reflexivity.
Qed.

Lemma Move_unfold pos m :
  Position.Move pos m =
  match Position.Move_np pos m with
  | Ok np => Ok (Position.Flip np)
  | Panic => Panic
  | OutOfFuel => OutOfFuel
  end.
Proof. unfold Position.Move. destruct (Position.Move_np pos m); reflexivity. Qed.

(** C10. A move of an own pawn to the last rank (between the [A8] and
    [H8] corners) always succeeds and leaves a queen on the destination
    square of the board before the flip; the move descriptor carries no
    promotion piece, so no other promotion exists.  After the flip the
    queen is the opponent's, on the reflected square. *)
Theorem promotion_is_queen (pos : Position) (m : Move) :
  length (board pos) = 120%nat ->
  board_get (board pos) (from m) = Ok "P" ->
  A8 <= to m <= H8 ->
  exists np,
    Position.Move_np pos m = Ok np /\
    board np !! Z.to_nat (to m) = Some "Q" /\
    Position.Move pos m = Ok (Position.Flip np) /\
    board (Position.Flip np) !! Z.to_nat (119 - to m) = Some "q".
Proof.
  intros Hl Hp Hj. unfold A8, H8 in Hj.
  pose proof (proj1 (board_get_Ok _ _ _) Hp) as [Hi _].
  destruct (value_total pos m) as [v Hv]; [done|lia|lia|].
  assert (Hnp : exists np, Position.Move_np pos m = Ok np /\
                           length (board np) = 120%nat /\
                           board np !! Z.to_nat (to m) = Some "Q").
  { unfold Position.Move_np. rewrite Hp. cbn [mbind result_bind].
    rewrite Hv. cbn [mbind result_bind board].
    rewrite board_set_Ok by (done || lia). cbn [mbind result_bind].
    rewrite board_set_Ok by (rewrite ?length_insert; done || lia).
    cbn [mbind result_bind].
    set (np0 := Position.rights_step _ _ _).
    assert (Hb0 : length (board np0) = 120%nat).
    { unfold np0. rewrite rights_step_board. cbn.
      by rewrite !length_insert. }
    unfold Position.king_step. cbn [piece_eqb Ascii.eqb Bool.eqb andb].
    cbn [mbind result_bind]. clearbody np0.
    unfold Position.pawn_step. cbn [piece_eqb Ascii.eqb Bool.eqb andb].
    unfold A8, H8.
    destruct (21 <=? to m) eqn:E1; [|lia].
    destruct (to m <=? 28) eqn:E2; [|lia].
    cbn [andb]. rewrite board_set_Ok by (done || lia).
    cbn [mbind result_bind].
    set (b1 := <[Z.to_nat (to m) := "Q"]> (board np0)).
    assert (Hb1 : length b1 = 120%nat) by (unfold b1; by rewrite length_insert).
    assert (Hq : b1 !! Z.to_nat (to m) = Some "Q").
    { unfold b1. apply list_lookup_insert_eq. lia. }
    clearbody b1.
    destruct (Int.sub (to m) (from m) =? Int.mul 2 Dir.N);
      destruct (to m =? ep pos); cbn [board Position.with_board].
    all: try (rewrite (add_small (to m) Dir.S) by (unfold Dir.S; lia);
              rewrite board_set_Ok by (done || unfold Dir.S; lia);
              cbn [mbind result_bind]).
    all: eexists; split; [reflexivity|]; cbn [board Position.with_board].
    all: rewrite ?length_insert; split; [done|].
    all: try (rewrite list_lookup_insert_ne by (unfold Dir.S; lia)); done. }
  destruct Hnp as (np & Hnp & Hlen & Hq).
  exists np. split; [done|]. split; [done|].
  split; [by rewrite Move_unfold, Hnp|].
  cbn [Position.Flip board]. rewrite Board_Flip_lookup, Hlen.
  rewrite decide_True by lia.
  replace (120 - Z.to_nat (119 - to m) - 1)%nat with (Z.to_nat (to m)) by lia.
  rewrite Hq. reflexivity.
Qed.

Lemma promotion_is_queen_witness :
  let b := Tests.board_of "8/3P4/8/8/8/8/8/8"%string in
  exists np,
    Position.Move_np (initial b) (mkMove 34 24) = Ok np /\
    board np !! Z.to_nat 24 = Some "Q" /\
    Position.Move (initial b) (mkMove 34 24) = Ok (Position.Flip np) /\
    board (Position.Flip np) !! Z.to_nat (119 - 24) = Some "q".
Proof.
  apply (promotion_is_queen
           (initial (Tests.board_of "8/3P4/8/8/8/8/8/8"%string)) (mkMove 34 24)).
  - vm_compute. reflexivity.
  - vm_compute. reflexivity.
  - unfold A8, H8. cbn. lia.
Defined.

Lemma bind_Ok_inv {A B} (r : result A) (k : A -> result B) b :
  (r ≫= k) = Ok b -> exists a, r = Ok a /\ k a = Ok b.
Proof. destruct r as [a| |]; cbn; [eauto | discriminate | discriminate]. Qed.

Lemma king_step_ep np p i j np' :
  Position.king_step np p i j = Ok np' -> ep np' = ep np.
Proof.
  unfold Position.king_step.
  destruct (piece_eqb p "K"); [|by intros [= <-]].
  destruct (Int.abs (Int.sub j i) =? 2); [|by intros [= <-]].
  intros H. apply bind_Ok_inv in H as (b1 & _ & H).
  apply bind_Ok_inv in H as (b2 & _ & H). by injection H as <-.
Qed.

Lemma pawn_step_ep pos np p i j np' :
  Position.pawn_step pos np p i j = Ok np' ->
  piece_eqb p "P" && (Int.sub j i =? Int.mul 2 Dir.N) = false ->
  ep np' = ep np.
Proof.
  unfold Position.pawn_step.
  destruct (piece_eqb p "P"); [|by intros [= <-]].
  cbn [andb]. intros H Hd. rewrite Hd in H.
  apply bind_Ok_inv in H as (np1 & H1 & H).
  assert (ep np1 = ep np) as <-.
  { destruct ((A8 <=? j) && (j <=? H8)); [|by injection H1 as <-].
    apply bind_Ok_inv in H1 as (b & _ & H1). by injection H1 as <-. }
  destruct (j =? ep pos); [|by injection H as <-].
  apply bind_Ok_inv in H as (b & _ & H). by injection H as <-.
Qed.

(** Whatever the move, unless it is a pawn's two-square advance, the
    successor's en-passant coordinate is the reflection 119 of the reset
    value 0, never 0 itself. *)
Lemma Move_ep_reflected pos m np :
  Position.Move pos m = Ok np ->
  ~ (board_get (board pos) (from m) = Ok "P" /\ to m - from m = -20) ->
  ep np = 119.
Proof.
  intros HM Hnot. rewrite Move_unfold in HM.
  destruct (Position.Move_np pos m) as [np0| |] eqn:Hnp; try discriminate.
  injection HM as <-. cbn [Position.Flip ep].
  enough (ep np0 = 0) as -> by reflexivity.
  unfold Position.Move_np in Hnp.
  apply bind_Ok_inv in Hnp as (p & Hp & Hnp).
  apply bind_Ok_inv in Hnp as (v & Hv & Hnp).
  apply bind_Ok_inv in Hnp as (src & Hsrc & Hnp).
  apply bind_Ok_inv in Hnp as (b1 & Hb1 & Hnp).
  apply bind_Ok_inv in Hnp as (b2 & Hb2 & Hnp).
  apply bind_Ok_inv in Hnp as (np1 & Hk & Hnp).
  apply king_step_ep in Hk. rewrite rights_step_ep in Hk. cbn in Hk.
  apply pawn_step_ep in Hnp; [congruence|].
  apply board_get_Ok in Hp as Hi. destruct Hi as [Hi _].
  apply board_set_inv in Hb1 as (Hj & _).
  rewrite (sub_small (to m) (from m)) by lia.
  destruct (piece_eqb p "P") eqn:HP; [|reflexivity].
  apply Ascii.eqb_eq in HP. subst p. cbn [andb].
  apply Z.eqb_neq. intros Heq. apply Hnot. split; [done|]. exact Heq.
Qed.

(** C6. A move that is not a pawn's two-square advance does not leave
    the successor's en-passant coordinate at 0, the value that denotes
    the absence of a target: [Move] resets the field to 0 and [Flip] then
    reflects it through 119, so the successor always carries 119. *)
Theorem successor_ep_is_119 (pos : Position) (m : Move) (np : Position) :
  Position.Move pos m = Ok np ->
  ~ (board_get (board pos) (from m) = Ok "P" /\ to m - from m = -20) ->
  ep np = 119 /\ ep np <> 0.
Proof.
  intros HM Hnot. rewrite (Move_ep_reflected pos m np HM Hnot).
  split; [reflexivity | discriminate].
Qed.

Lemma successor_ep_is_119_witness :
  Position.Move Fixtures.start (mkMove 92 73) = Ok Fixtures.after_knight /\
  board_get (board Fixtures.start) 92 = Ok "N" /\
  ep Fixtures.start = 0 /\
  ep Fixtures.after_knight = 119 /\ ep Fixtures.after_knight <> 0.
Proof.
  assert (HM : Position.Move Fixtures.start (mkMove 92 73)
               = Ok Fixtures.after_knight) by (vm_compute; reflexivity).
  split; [exact HM|]. split; [vm_compute; reflexivity|].
  split; [reflexivity|].
  apply (successor_ep_is_119 Fixtures.start (mkMove 92 73) _ HM).
  intros [HP _]. vm_compute in HP. discriminate HP.
Defined.

(** C3. Castling moves the king two squares and puts a rook on the
    midpoint square, and clears both castling flags of the mover, but the
    corner that is emptied is the wrong one: on the king-side move e1g1
    the rook on [H1] stays and [A1] is emptied, and on the queen-side move
    e1c1 the rook on [A1] stays and [H1] is emptied.  The evaluator
    [value] takes the rook from [A1] when the destination is below the
    origin and from [H1] otherwise. *)
Theorem castling_empties_wrong_corner :
  (exists ms, Position.Moves Fixtures.castle = Ok ms /\
              mkMove 95 97 ∈ ms /\ mkMove 95 93 ∈ ms) /\
  (exists np,
     Position.Move_np Fixtures.castle (mkMove 95 97) = Ok np /\
     board np !! 97%nat = Some "K" /\ board np !! 96%nat = Some "R" /\
     board np !! 98%nat = Some "R" /\ board np !! 91%nat = Some "." /\
     wc np = (false, false)) /\
  (exists np,
     Position.Move_np Fixtures.castle (mkMove 95 93) = Ok np /\
     board np !! 93%nat = Some "K" /\ board np !! 94%nat = Some "R" /\
     board np !! 91%nat = Some "R" /\ board np !! 98%nat = Some "." /\
     wc np = (false, false)) /\
  (exists np,
     Position.Move Fixtures.castle (mkMove 95 97) = Ok np /\
     bc np = (false, false)).
Proof.
  split; [|split; [|split]].
  - exists (Fixtures.moves_of Fixtures.castle).
    split; [vm_compute; reflexivity|].
    split; apply list_elem_of_In; vm_compute; tauto.
  - exists (Fixtures.before_flip Fixtures.castle (mkMove 95 97)).
    repeat split; vm_compute; reflexivity.
  - exists (Fixtures.before_flip Fixtures.castle (mkMove 95 93)).
    repeat split; vm_compute; reflexivity.
  - exists (Fixtures.after Fixtures.castle (mkMove 95 97)).
    repeat split; vm_compute; reflexivity.
Qed.

(** ** The move generator on padded boards *)

Section Generator.

Variable pos : Position.

Lemma inner_bounds j : Grid.inner j = true -> 21 <= j <= 98.
Proof.
  unfold Grid.inner. rewrite !andb_true_iff, !Z.leb_le.
  intros (((H1 & H2) & H3) & H4).
  pose proof (Z.div_mod j 10 ltac:(lia)). lia.
Qed.

Lemma padded_inner j p :
  Grid.padded (board pos) ->
  board_get (board pos) j = Ok p ->
  p <> " " ->
  Grid.inner j = true.
Proof.
  intros [_ Hpad] Hget Hne.
  apply board_get_Ok in Hget as [Hj Hp].
  specialize (Hpad _ _ Hp). rewrite Z2Nat.id in Hpad by lia.
  unfold Grid.cell_ok in Hpad.
  destruct (Grid.inner j); [reflexivity|].
  apply Ascii.eqb_eq in Hpad. contradiction.
Qed.

Lemma directions_range p :
  Forall (fun d => d <> 0 /\ -21 <= d <= 21) (Position.directions p).
Proof.
  destruct p as [[] [] [] [] [] [] [] []]; cbn;
    repeat constructor; unfold Dir.N, Dir.E, Dir.S, Dir.W; lia.
Qed.

Lemma ours_not_sentinel p :
  Piece.ours p = true -> p <> " " /\ p <> ".".
Proof.
  destruct p as [[] [] [] [] [] [] [] []]; cbn; intros H;
    first [discriminate H | split; discriminate].
Qed.

(** A square that neither stops the ray nor is a capture is empty. *)
Lemma continue_is_empty q :
  piece_eqb q " " || (negb (piece_eqb q ".") && Piece.ours q) = false ->
  negb (piece_eqb q " ") && negb (piece_eqb q ".") && negb (Piece.ours q) = false ->
  q = ".".
Proof.
  unfold piece_eqb.
  destruct (Ascii.eqb q ".") eqn:Hd; [intros _ _; by apply Ascii.eqb_eq|].
  destruct (Ascii.eqb q " "); cbn; [discriminate|].
  destruct (Piece.ours q); cbn; discriminate.
Qed.

Lemma pawn_break_total i d j q :
  Grid.padded (board pos) ->
  Grid.inner i = true ->
  exists b, Position.pawn_break pos i d j q = Ok b.
Proof.
  intros [Hl _] Hi. apply inner_bounds in Hi.
  unfold Position.pawn_break.
  destruct (((d =? Dir.N) || (d =? Dir.N + Dir.N)) && negb (piece_eqb q "."));
    [eauto|].
  destruct (d =? Dir.N + Dir.N); cbn [mbind result_bind]; [|eauto].
  destruct (i <? A1 + Dir.N); cbn [mbind result_bind]; [eauto|].
  destruct (board_get_total (board pos) (i + Dir.N)) as [r Hr];
    [done | unfold Dir.N; lia |].
  rewrite Hr. cbn [mbind result_bind].
  destruct (negb (piece_eqb r ".")); eauto.
Qed.

Lemma castle_a_total i j moves :
  length (board pos) = 120%nat -> 21 <= j <= 98 ->
  exists ms, Position.castle_a pos i j moves = Ok ms.
Proof.
  intros Hl Hj. unfold Position.castle_a.
  destruct (i =? A1); [|eauto].
  destruct (board_get_total (board pos) (j + Dir.E)) as [r Hr];
    [done | unfold Dir.E; lia |].
  rewrite Hr. cbn [mbind result_bind].
  destruct (piece_eqb r "K" && fst (wc pos)); eauto.
Qed.

Lemma castle_h_total i j moves :
  length (board pos) = 120%nat -> 21 <= j <= 98 ->
  exists ms, Position.castle_h pos i j moves = Ok ms.
Proof.
  intros Hl Hj. unfold Position.castle_h.
  destruct (i =? H1); [|eauto].
  destruct (board_get_total (board pos) (j + Dir.W)) as [r Hr];
    [done | unfold Dir.W; lia |].
  rewrite Hr. cbn [mbind result_bind].
  destruct (piece_eqb r "K" && snd (wc pos)); eauto.
Qed.

Lemma fuel_covers_step fuel d j :
  d <> 0 -> 0 <= j < 120 ->
  fuel_covers (S fuel) d j -> fuel_covers fuel d (j + d).
Proof.
  intros Hd Hj [_ H]. specialize (H Hj). split; [lia|]. intros Hj'. lia.
Qed.

Lemma fuel_covers_start i d :
  d <> 0 -> 0 <= i < 120 -> fuel_covers Position.ray_fuel d (i + d).
Proof.
  intros Hd Hi. unfold Position.ray_fuel. split; [lia|]. intros Hj. lia.
Qed.

(** On a padded board a ray that starts next to an inner square reads
    only cells of the grid and ends. *)
Lemma ray_total i p d :
  Grid.padded (board pos) ->
  Grid.inner i = true ->
  d <> 0 -> -21 <= d <= 21 ->
  forall fuel j moves,
    Grid.inner (j - d) = true ->
    fuel_covers fuel d j ->
    exists ms, Position.ray fuel pos i p d j moves = Ok ms.
Proof.
  intros Hpad Hi Hd0 Hd.
  induction fuel as [|fuel IH]; intros j moves Hprev Hfuel.
  { destruct Hfuel as [Hf _]. lia. }
  pose proof (inner_bounds _ Hprev) as Hb.
  pose proof Hpad as [Hl _].
  cbn [Position.ray].
  destruct (board_get_total (board pos) j) as [q Hq]; [done|lia|].
  rewrite Hq. cbn [mbind result_bind].
  destruct (piece_eqb q " " || (negb (piece_eqb q ".") && Piece.ours q))
    eqn:Hstop; [eauto|].
  assert (Hbrk : exists b,
    (if piece_eqb p "P" then Position.pawn_break pos i d j q else Ok false)
    = Ok b).
  { destruct (piece_eqb p "P"); [by apply pawn_break_total | eauto]. }
  destruct Hbrk as [b ->]. cbn [mbind result_bind].
  destruct b; [eauto|].
  destruct (piece_eqb p "P" || piece_eqb p "N" || piece_eqb p "K" ||
            (negb (piece_eqb q " ") && negb (piece_eqb q ".") &&
             negb (Piece.ours q))) eqn:Hcrawl; [eauto|].
  apply orb_false_iff in Hcrawl as [_ Hcap].
  pose proof (continue_is_empty q Hstop Hcap) as ->.
  assert (Hinner : Grid.inner j = true).
  { eapply padded_inner; [done | exact Hq | discriminate]. }
  pose proof (inner_bounds _ Hinner) as Hj.
  destruct (castle_a_total i j (moves ++ [mkMove i j]) Hl Hj) as [m1 ->].
  cbn [mbind result_bind].
  destruct (castle_h_total i j m1 Hl Hj) as [m2 ->].
  cbn [mbind result_bind].
  apply IH.
  - by replace (j + d - d) with j by lia.
  - apply fuel_covers_step; [done | lia | done].
Qed.

Lemma rays_total i p ds :
  Grid.padded (board pos) ->
  Grid.inner i = true ->
  Forall (fun d => d <> 0 /\ -21 <= d <= 21) ds ->
  forall moves, exists ms, Position.rays pos i p ds moves = Ok ms.
Proof.
  intros Hpad Hi Hds. induction Hds as [|d ds [Hd0 Hd] _ IH]; intros moves.
  - cbn. eauto.
  - cbn [Position.rays].
    destruct (ray_total i p d Hpad Hi Hd0 Hd Position.ray_fuel (i + d) moves)
      as [ms ->].
    + by replace (i + d - d) with i by lia.
    + apply fuel_covers_start; [done|]. apply inner_bounds in Hi. lia.
    + cbn [mbind result_bind]. apply IH.
Qed.

Lemma squares_total cells :
  Grid.padded (board pos) ->
  forall index moves,
    0 <= index ->
    (forall (k : nat) p, cells !! k = Some p ->
                         board pos !! (Z.to_nat index + k)%nat = Some p) ->
    exists ms, Position.squares pos cells index moves = Ok ms.
Proof.
  intros Hpad. induction cells as [|p cells IH]; intros index moves Hidx Hcells.
  - cbn. eauto.
  - cbn [Position.squares].
    assert (Hnext : forall (k : nat) q, cells !! k = Some q ->
              board pos !! (Z.to_nat (index + 1) + k)%nat = Some q).
    { intros k q Hk. specialize (Hcells (S k) q Hk).
      replace (Z.to_nat (index + 1) + k)%nat with (Z.to_nat index + S k)%nat
        by lia. exact Hcells. }
    destruct (Piece.ours p) eqn:Hours; cbn [negb].
    + assert (Hp : board_get (board pos) index = Ok p).
      { apply board_get_Ok. specialize (Hcells 0%nat p eq_refl).
        rewrite Nat.add_0_r in Hcells.
        pose proof (lookup_lt_Some _ _ _ Hcells) as Hlt.
        destruct Hpad as [Hl _]. rewrite Hl in Hlt. split; [lia | done]. }
      assert (Hi : Grid.inner index = true).
      { eapply padded_inner; [done | exact Hp |].
        by apply ours_not_sentinel. }
      destruct (rays_total index p (Position.directions p) Hpad Hi
                  (directions_range p) moves) as [ms ->].
      cbn [mbind result_bind]. apply IH; [lia | done].
    + apply IH; [lia | done].
Qed.

(** C8. On a snapshot whose board satisfies the padding invariant every
    board read of [Moves] - each ray square, the square a pawn jumps
    over, the two castling probes next to a ray square - is inside the
    120 cells, and every ray ends: [Moves] returns its list, it neither
    panics nor runs out of fuel. *)
Theorem Moves_total_on_padded :
  Grid.padded (board pos) ->
  exists ms, Position.Moves pos = Ok ms.
Proof.
  intros Hpad. unfold Position.Moves.
  apply squares_total; [done | lia |].
  intros k p Hk. exact Hk.
Qed.

End Generator.

Lemma paddedb_spec (a : Board) : Grid.paddedb a = true -> Grid.padded a.
Proof.
  unfold Grid.paddedb, Grid.padded.
  rewrite andb_true_iff, Nat.eqb_eq, forallb_forall.
  intros [Hl Hall]. split; [done|].
  intros j p Hj.
  apply (Hall (j, p)). apply list_elem_of_In.
  apply list_elem_of_lookup. exists j.
  rewrite list_lookup_imap, Hj. reflexivity.
Qed.

Lemma Moves_total_on_padded_witness :
  Grid.padded (board Fixtures.start) /\
  exists ms, Position.Moves Fixtures.start = Ok ms.
Proof.
  assert (H : Grid.padded (board Fixtures.start)).
  { apply paddedb_spec. vm_compute. reflexivity. }
  split; [exact H|].
  exact (Moves_total_on_padded Fixtures.start H).
Defined.

(** ** What the generator emits *)

(** The moves are appended to the slice built so far: every loop of
    [Moves] yields the slice it was given followed by what it finds. *)
Lemma castle_a_app pos i j acc :
  Position.castle_a pos i j acc =
  (new ← Position.castle_a pos i j []; Ok (acc ++ new)).
Proof.
  unfold Position.castle_a.
  destruct (i =? A1); cbn [mbind result_bind]; [|by rewrite app_nil_r].
  destruct (board_get (board pos) (j + Dir.E)) as [r| |];
    cbn [mbind result_bind]; try reflexivity.
  destruct (piece_eqb r "K" && fst (wc pos)); cbn [mbind result_bind];
    [reflexivity | by rewrite app_nil_r].
Qed.

Lemma castle_h_app pos i j acc :
  Position.castle_h pos i j acc =
  (new ← Position.castle_h pos i j []; Ok (acc ++ new)).
Proof.
  unfold Position.castle_h.
  destruct (i =? H1); cbn [mbind result_bind]; [|by rewrite app_nil_r].
  destruct (board_get (board pos) (j + Dir.W)) as [r| |];
    cbn [mbind result_bind]; try reflexivity.
  destruct (piece_eqb r "K" && snd (wc pos)); cbn [mbind result_bind];
    [reflexivity | by rewrite app_nil_r].
Qed.

Lemma ray_app pos i p d fuel : forall j acc,
  Position.ray fuel pos i p d j acc =
  (new ← Position.ray fuel pos i p d j []; Ok (acc ++ new)).
Proof.
  induction fuel as [|fuel IH]; intros j acc; [reflexivity|].
  cbn [Position.ray].
  destruct (board_get (board pos) j) as [q| |];
    cbn [mbind result_bind]; try reflexivity.
  destruct (piece_eqb q " " || (negb (piece_eqb q ".") && Piece.ours q));
    cbn [mbind result_bind]; [by rewrite app_nil_r|].
  destruct (if piece_eqb p "P" then Position.pawn_break pos i d j q
            else Ok false) as [[]| |];
    cbn [mbind result_bind]; try reflexivity; [by rewrite app_nil_r|].
  destruct (piece_eqb p "P" || piece_eqb p "N" || piece_eqb p "K" ||
            (negb (piece_eqb q " ") && negb (piece_eqb q ".") &&
             negb (Piece.ours q))); [reflexivity|].
  rewrite (castle_a_app pos i j (acc ++ [mkMove i j])).
  rewrite (castle_a_app pos i j ([] ++ [mkMove i j])).
  destruct (Position.castle_a pos i j []) as [ca| |];
    cbn [mbind result_bind]; try reflexivity.
  rewrite (castle_h_app pos i j ((acc ++ [mkMove i j]) ++ ca)).
  rewrite (castle_h_app pos i j (([] ++ [mkMove i j]) ++ ca)).
  destruct (Position.castle_h pos i j []) as [ch| |];
    cbn [mbind result_bind]; try reflexivity.
  rewrite (IH (j + d) (((acc ++ [mkMove i j]) ++ ca) ++ ch)).
  rewrite (IH (j + d) ((([] ++ [mkMove i j]) ++ ca) ++ ch)).
  destruct (Position.ray fuel pos i p d (j + d) []) as [tl| |];
    cbn [mbind result_bind]; try reflexivity.
  f_equal. cbn [app]. by rewrite <- !app_assoc.
Qed.

(** A move found on a ray starts on the square of the piece that is
    moved, or it is a castling move and starts on a king. *)
Lemma ray_from pos i p d fuel : forall j acc ms,
  Position.ray fuel pos i p d j acc = Ok ms ->
  let Q m := from m = i \/ board_get (board pos) (from m) = Ok "K" in
  Forall Q acc -> Forall Q ms.
Proof.
  induction fuel as [|fuel IH]; intros j acc ms H Q Hacc; [discriminate|].
  cbn [Position.ray] in H.
  apply bind_Ok_inv in H as (q & Hq & H).
  destruct (piece_eqb q " " || (negb (piece_eqb q ".") && Piece.ours q));
    [by injection H as <-|].
  apply bind_Ok_inv in H as (brk & _ & H).
  destruct brk; [by injection H as <-|].
  assert (Hacc' : Forall Q (acc ++ [mkMove i j])).
  { apply Forall_app. split; [done|]. constructor; [by left | constructor]. }
  destruct (piece_eqb p "P" || piece_eqb p "N" || piece_eqb p "K" ||
            (negb (piece_eqb q " ") && negb (piece_eqb q ".") &&
             negb (Piece.ours q))); [by injection H as <-|].
  apply bind_Ok_inv in H as (m1 & Ha & H).
  apply bind_Ok_inv in H as (m2 & Hh & H).
  apply (IH _ _ _ H).
  assert (Hm1 : Forall Q m1).
  { unfold Position.castle_a in Ha.
    destruct (i =? A1); [|by injection Ha as <-].
    apply bind_Ok_inv in Ha as (r & Hr & Ha).
    destruct (piece_eqb r "K") eqn:HK; cbn [andb] in Ha;
      [|by injection Ha as <-].
    destruct (fst (wc pos)); injection Ha as <-; [|done].
    apply Forall_app. split; [done|]. constructor; [|constructor].
    right. cbn [from]. apply Ascii.eqb_eq in HK. by subst r. }
  unfold Position.castle_h in Hh.
  destruct (i =? H1); [|by injection Hh as <-].
  apply bind_Ok_inv in Hh as (r & Hr & Hh).
  destruct (piece_eqb r "K") eqn:HK; cbn [andb] in Hh;
    [|by injection Hh as <-].
  destruct (snd (wc pos)); injection Hh as <-; [|done].
  apply Forall_app. split; [done|]. constructor; [|constructor].
  right. cbn [from]. apply Ascii.eqb_eq in HK. by subst r.
Qed.

(** Membership in the result of the direction loop. *)
Lemma rays_elem pos i p m : forall ds acc ms,
  Position.rays pos i p ds acc = Ok ms ->
  (m ∈ ms <->
   m ∈ acc \/
   exists d new, d ∈ ds /\
     Position.ray Position.ray_fuel pos i p d (i + d) [] = Ok new /\ m ∈ new).
Proof.
  induction ds as [|d ds IH]; intros acc ms H.
  - injection H as <-. split; [by left|].
    intros [?|(d & new & Hd & _)]; [done|]. by apply elem_of_nil in Hd.
  - cbn [Position.rays] in H. rewrite ray_app in H.
    apply bind_Ok_inv in H as (ms1 & Hr1 & H).
    apply bind_Ok_inv in Hr1 as (new & Hnew & Hr1). injection Hr1 as <-.
    rewrite (IH _ _ H), elem_of_app. split.
    + intros [[?|?]|(d' & new' & Hd & Hr & Hm)]; [by left| |].
      * right. exists d, new. split; [left|]; done.
      * right. exists d', new'. split; [by right|done].
    + intros [?|(d' & new' & Hd & Hr & Hm)]; [by left; left|].
      apply elem_of_cons in Hd as [->|Hd].
      * left; right. congruence.
      * right. by exists d', new'.
Qed.

(** Membership in the result of the loop over the cells. *)
Lemma squares_elem pos m : forall cells index acc ms,
  Position.squares pos cells index acc = Ok ms ->
  (m ∈ ms <->
   m ∈ acc \/
   exists (k : nat) p d new,
     cells !! k = Some p /\ Piece.ours p = true /\
     d ∈ Position.directions p /\
     Position.ray Position.ray_fuel pos (index + Z.of_nat k) p d
                  (index + Z.of_nat k + d) [] = Ok new /\
     m ∈ new).
Proof.
  induction cells as [|c cells IH]; intros index acc ms H.
  - injection H as <-. split; [by left|].
    intros [?|(k & p & d & new & Hk & _)]; [done|discriminate Hk].
  - cbn [Position.squares] in H.
    destruct (Piece.ours c) eqn:Hc; cbn [negb] in H.
    + apply bind_Ok_inv in H as (ms1 & Hr1 & H).
      rewrite (IH _ _ _ H), (rays_elem _ _ _ m _ _ _ Hr1). split.
      * intros [[?|(d & new & Hd & Hr & Hm)]|(k & p & d & new & Hk & Hp & Hd & Hr & Hm)].
        -- by left.
        -- right. exists 0%nat, c, d, new. rewrite Z.add_0_r. done.
        -- right. exists (S k), p, d, new.
           replace (index + Z.of_nat (S k)) with (index + 1 + Z.of_nat k) by lia.
           done.
      * intros [?|(k & p & d & new & Hk & Hp & Hd & Hr & Hm)]; [by left; left|].
        destruct k as [|k].
        -- injection Hk as ->. rewrite Z.add_0_r in Hr.
           left; right. by exists d, new.
        -- right. exists k, p, d, new.
           replace (index + 1 + Z.of_nat k) with (index + Z.of_nat (S k)) by lia.
           done.
    + rewrite (IH _ _ _ H). split.
      * intros [?|(k & p & d & new & Hk & Hp & Hd & Hr & Hm)]; [by left|].
        right. exists (S k), p, d, new.
        replace (index + Z.of_nat (S k)) with (index + 1 + Z.of_nat k) by lia.
        done.
      * intros [?|(k & p & d & new & Hk & Hp & Hd & Hr & Hm)]; [by left|].
        destruct k as [|k]; [injection Hk as ->; congruence|].
        right. exists k, p, d, new.
        replace (index + 1 + Z.of_nat k) with (index + Z.of_nat (S k)) by lia.
        done.
Qed.

(** The moves of [Moves] are exactly the moves found on the rays of the
    own pieces, along the directions of each. *)
Lemma Moves_elem pos ms m :
  Position.Moves pos = Ok ms ->
  (m ∈ ms <->
   exists (k : nat) p d new,
     board pos !! k = Some p /\ Piece.ours p = true /\
     d ∈ Position.directions p /\
     Position.ray Position.ray_fuel pos (Z.of_nat k) p d (Z.of_nat k + d) []
       = Ok new /\
     m ∈ new).
Proof.
  intros H. unfold Position.Moves in H.
  rewrite (squares_elem _ m _ _ _ _ H). cbn [Z.add]. split.
  - intros [Hm|Hm]; [by apply elem_of_nil in Hm | exact Hm].
  - intros Hm. by right.
Qed.

(** *** The diagonal steps of a pawn *)

(** A pawn's ray is one step long. *)
Lemma pawn_ray_step pos i d fuel j acc ms :
  Position.ray (S fuel) pos i "P" d j acc = Ok ms ->
  ms = acc \/ ms = acc ++ [mkMove i j].
Proof.
  cbn [Position.ray]. intros H.
  apply bind_Ok_inv in H as (q & _ & H).
  destruct (piece_eqb q " " || (negb (piece_eqb q ".") && Piece.ours q));
    [left; by injection H as <-|].
  apply bind_Ok_inv in H as (brk & _ & H).
  destruct brk; [left; by injection H as <-|].
  change (piece_eqb "P" "P") with true in H. cbn [orb] in H.
  right. by injection H as <-.
Qed.

(** The diagonal ray of a pawn, computed: on an empty square the move
    is kept exactly for the four coordinates [ep], [kp], [kp-1] and
    [kp+1]; on any other square exactly when the occupant is neither
    the off-board sentinel nor an own piece.  No cell but [j] is read. *)
Lemma pawn_diag_ray pos i d fuel j q :
  d = Dir.N + Dir.W \/ d = Dir.N + Dir.E ->
  board_get (board pos) j = Ok q ->
  Position.ray (S fuel) pos i "P" d j [] =
  Ok (if (if piece_eqb q "."
          then (j =? ep pos) || (j =? kp pos) ||
               (j =? Int.sub (kp pos) 1) || (j =? Int.add (kp pos) 1)
          else negb (piece_eqb q " ") && negb (Piece.ours q))
      then [mkMove i j] else []).
Proof.
  intros Hd Hq. cbn [Position.ray]. rewrite Hq. cbn [mbind result_bind].
  change (piece_eqb "P" "P") with true. cbn [orb].
  unfold Position.pawn_break.
  assert (HN : (d =? Dir.N) = false) by (destruct Hd; subst d; reflexivity).
  assert (HNN : (d =? Dir.N + Dir.N) = false)
    by (destruct Hd; subst d; reflexivity).
  assert (HD : (d =? Dir.N + Dir.W) || (d =? Dir.N + Dir.E) = true)
    by (destruct Hd; subst d; reflexivity).
  rewrite HN, HNN, HD. cbn [orb andb mbind result_bind].
  destruct (piece_eqb q ".") eqn:Hdot.
  - apply Ascii.eqb_eq in Hdot. subst q.
    change (piece_eqb "." " ") with false.
    change (piece_eqb "." ".") with true. cbn [negb orb andb].
    destruct (j =? ep pos), (j =? kp pos), (j =? Int.sub (kp pos) 1),
      (j =? Int.add (kp pos) 1); reflexivity.
  - cbn [negb andb]. destruct (piece_eqb q " "), (Piece.ours q); reflexivity.
Qed.

(** The sentence of the specification as it stands: onto an empty square the diagonal step is
    generated only for the en-passant coordinate and the two neighbours
    of the king-passant coordinate.  The king-passant coordinate itself
    is accepted as well. *)
Lemma pawn_diagonal_onto_kp :
  ~ (forall pos ms i j,
       Position.Moves pos = Ok ms ->
       board_get (board pos) i = Ok "P" ->
       j = i + (Dir.N + Dir.W) \/ j = i + (Dir.N + Dir.E) ->
       board_get (board pos) j = Ok "." ->
       (mkMove i j ∈ ms <->
        j = ep pos \/ j = Int.sub (kp pos) 1 \/ j = Int.add (kp pos) 1)).
Proof.
  intros H.
  specialize (H Fixtures.passant (Fixtures.moves_of Fixtures.passant) 85 74).
  destruct H as [H _].
  - vm_compute. reflexivity.
  - vm_compute. reflexivity.
  - left. reflexivity.
  - vm_compute. reflexivity.
  - assert (Hin : mkMove 85 74 ∈ Fixtures.moves_of Fixtures.passant)
      by (apply list_elem_of_In; vm_compute; tauto).
    apply H in Hin. vm_compute in Hin.
    destruct Hin as [Hin|[Hin|Hin]]; discriminate Hin.
Qed.

(** C5. For a pawn on [i] and a square [j] one step diagonally forward:
    the move is generated if and only if either [j] is empty and is the
    en-passant coordinate, the king-passant coordinate or one of its two
    neighbours, or [j] is occupied by something that is neither the
    off-board sentinel nor an own piece. *)
Theorem pawn_diagonal_rule (pos : Position) (ms : list Move) (i j : Z) (q : Piece) :
  Position.Moves pos = Ok ms ->
  board_get (board pos) i = Ok "P" ->
  j = i + (Dir.N + Dir.W) \/ j = i + (Dir.N + Dir.E) ->
  board_get (board pos) j = Ok q ->
  (mkMove i j ∈ ms <->
   (q = "." /\
    (j = ep pos \/ j = kp pos \/
     j = Int.sub (kp pos) 1 \/ j = Int.add (kp pos) 1)) \/
   (q <> "." /\ q <> " " /\ Piece.ours q = false)).
Proof.
  intros HM Hp Hd Hq.
  pose proof (proj1 (board_get_Ok _ _ _) Hp) as [Hi Hpi].
  set (e := if piece_eqb q "."
            then (j =? ep pos) || (j =? kp pos) ||
                 (j =? Int.sub (kp pos) 1) || (j =? Int.add (kp pos) 1)
            else negb (piece_eqb q " ") && negb (Piece.ours q)).
  assert (Hd' : j - i = Dir.N + Dir.W \/ j - i = Dir.N + Dir.E)
    by (destruct Hd; [left | right]; lia).
  assert (Hray : Position.ray (S 119) pos i "P" (j - i) j []
                 = Ok (if e then [mkMove i j] else []))
    by (by apply pawn_diag_ray).
  assert (Hemit : mkMove i j ∈ ms <-> e = true).
  { rewrite (Moves_elem _ _ _ HM). split.
    - intros (k & p & d & new & Hk & Hours & Hdir & Hr & Hm).
      pose proof (ray_from _ _ _ _ _ _ _ _ Hr (Forall_nil_2 _)) as HQ.
      rewrite Forall_forall in HQ. specialize (HQ _ Hm). cbn [from] in HQ.
      destruct HQ as [->|HK]; [|congruence].
      rewrite Nat2Z.id in Hpi. assert (p = "P") as -> by congruence.
      change Position.ray_fuel with (S 119) in Hr.
      destruct (pawn_ray_step _ _ _ _ _ _ _ Hr) as [->| ->];
        [by apply elem_of_nil in Hm|].
      apply list_elem_of_singleton in Hm. injection Hm as Hj.
      assert (d = j - Z.of_nat k) as -> by lia.
      replace (Z.of_nat k + (j - Z.of_nat k)) with j in Hr by lia.
      rewrite Hray in Hr. destruct e; [reflexivity|discriminate Hr].
    - intros He. exists (Z.to_nat i), "P", (j - i), [mkMove i j].
      rewrite Z2Nat.id by lia. split; [done|]. split; [reflexivity|].
      split.
      { apply list_elem_of_In. destruct Hd' as [-> | ->]; cbn; tauto. }
      replace (i + (j - i)) with j by lia.
      change Position.ray_fuel with (S 119).
      rewrite Hray, He. split; [reflexivity|]. by apply list_elem_of_singleton. }
  rewrite Hemit. subst e. unfold piece_eqb.
  destruct (Ascii.eqb q ".") eqn:Hdot.
  - apply Ascii.eqb_eq in Hdot.
    rewrite !orb_true_iff, !Z.eqb_eq. tauto.
  - apply Ascii.eqb_neq in Hdot.
    rewrite andb_true_iff, !negb_true_iff, Ascii.eqb_neq. tauto.
Qed.

Lemma pawn_diagonal_rule_witness :
  mkMove 85 74 ∈ Fixtures.moves_of Fixtures.passant <->
  ("."%char = "." /\
   (74 = ep Fixtures.passant \/ 74 = kp Fixtures.passant \/
    74 = Int.sub (kp Fixtures.passant) 1 \/
    74 = Int.add (kp Fixtures.passant) 1)) \/
  ("."%char <> "." /\ "."%char <> " " /\ Piece.ours "." = false).
Proof.
  apply (pawn_diagonal_rule Fixtures.passant
           (Fixtures.moves_of Fixtures.passant) 85 74 ".").
  - vm_compute. reflexivity.
  - vm_compute. reflexivity.
  - left. reflexivity.
  - vm_compute. reflexivity.
Defined.

(** ** The null-window search *)

(** The sentence of the specification as it stands: what [bound] returns for a threshold lies on
    the same side of the threshold as the depth-limited minimax score.
    With two bare kings, ours on g8, every king move loses position
    value (the best one 23 points), there is no capture anywhere, and
    the minimax score one ply deep is -23; for the threshold 0 [bound]
    answers 0, the score of the null move. *)
Lemma bound_breaks_contract :
  ~ (forall fuel pos gamma (d : nat) r s t,
       Searcher.bound fuel new_searcher pos gamma (Z.of_nat d) = Ok (r, s) ->
       Reference.minimax d pos = Ok t ->
       Reference.null_window_contract r t gamma).
Proof.
  intros H.
  specialize (H 10%nat Fixtures.kings 0 1%nat 0
                (Fixtures.searcher_of
                   (Searcher.bound 10 new_searcher Fixtures.kings 0 1)
                   new_searcher)
                (-23)).
  destruct H as (_ & H & _).
  - vm_compute. reflexivity.
  - vm_compute. reflexivity.
  - lia.
Qed.

(** C1. Standing pat: for a snapshot that the table does not answer, at
    depth 0 or below, the value that [bound] returns is never below the
    snapshot's own score, and it is that score unless the score is below
    the threshold; so it is at least the threshold whenever the score
    is. *)
Theorem bound_stand_pat (fuel : nat) (s : Searcher) (pos : Position)
    (gamma depth r : Z) (s' : Searcher) :
  Searcher.hit s pos gamma depth = false ->
  depth <= 0 ->
  Searcher.bound fuel s pos gamma depth = Ok (r, s') ->
  score pos <= r /\ (r = score pos \/ score pos < gamma).
Proof.
  intros Hmiss Hd H. destruct fuel as [|fuel]; [discriminate H|].
  cbn [Searcher.bound] in H. cbv zeta in H. cbn [tp nodes] in H.
  unfold Searcher.hit in Hmiss. rewrite Hmiss in H.
  destruct (MateValue <=? Int.abs (score pos)).
  { injection H as <- _. lia. }
  destruct (0 <? depth) eqn:Hpos; [apply Z.ltb_lt in Hpos; lia|].
  cbn [mbind result_bind] in H.
  destruct (gamma <=? score pos) eqn:Hg.
  { injection H as <- _. lia. }
  apply Z.leb_gt in Hg.
  apply bind_Ok_inv in H as (ms & _ & H).
  apply bind_Ok_inv in H as ([[bs bm] s2] & _ & H).
  destruct (depth <=? 0) eqn:Hle; [|apply Z.leb_gt in Hle; lia].
  cbn [andb] in H.
  destruct (bs <? score pos) eqn:Hb.
  { injection H as <- _. lia. }
  apply Z.ltb_ge in Hb. injection H as <- _. lia.
Qed.

Lemma bound_stand_pat_witness :
  score Fixtures.kings <= 0 /\
  (0 = score Fixtures.kings \/ score Fixtures.kings < 0).
Proof.
  apply (bound_stand_pat 1 new_searcher Fixtures.kings 0 0 0
           (Fixtures.searcher_of
              (Searcher.bound 1 new_searcher Fixtures.kings 0 0)
              new_searcher)).
  - vm_compute. reflexivity.
  - lia.
  - vm_compute. reflexivity.
Defined.

(** ** Machine integers and pieces *)

(** [abs] is the absolute value on every machine integer but the least
    one, which it returns unchanged. *)
Theorem abs_spec (n : Z) :
  Int.ok n ->
  Int.abs n = if n =? Int.min_int then Int.min_int else Z.abs n.
Proof.
  unfold Int.ok, Int.min_int, Int.max_int. intros Hn.
  unfold Int.abs, Int.sub. rewrite Z.shiftr_div_pow2 by lia.
  destruct (Z.neg_nonneg_cases n) as [Hneg|Hpos].
  - replace (n / 2 ^ 63) with (-1)
      by (apply (Z.div_unique n (2 ^ 63) (-1) (n + 2 ^ 63)); lia).
    rewrite Z.lxor_m1_r. unfold Z.lnot.
    replace (Z.pred (- n) - -1) with (- n) by lia.
    destruct (n =? - 2 ^ 63) eqn:E.
    + apply Z.eqb_eq in E. subst n. reflexivity.
    + apply Z.eqb_neq in E. rewrite wrap_id
        by (unfold Int.ok, Int.min_int, Int.max_int; lia). lia.
  - rewrite Z.div_small by lia. rewrite Z.lxor_0_r, Z.sub_0_r.
    destruct (n =? - 2 ^ 63) eqn:E; [apply Z.eqb_eq in E; lia|].
    rewrite wrap_id by (unfold Int.ok, Int.min_int, Int.max_int; lia). lia.
Qed.

Lemma abs_spec_witness :
  Int.abs (-4) = if -4 =? Int.min_int then Int.min_int else Z.abs (-4).
Proof.
  apply (abs_spec (-4)).
  unfold Int.ok, Int.min_int, Int.max_int. lia.
Defined.

(** [Piece.Flip] answers the zero byte exactly for the bytes that are
    not piece codes, a piece and its flip are never both the mover's,
    and of a playing piece and its flip exactly one is. *)
Theorem Piece_Flip_sides (p : Piece) :
  (Piece.Flip p = zero <-> Piece.valid p = false) /\
  Piece.ours p && Piece.ours (Piece.Flip p) = false /\
  xorb (Piece.ours p) (Piece.ours (Piece.Flip p)) =
    Piece.playable p && negb (piece_eqb p ".").
Proof.
  destruct p as [[] [] [] [] [] [] [] []]; cbn;
    (split; [split; intros H; first [reflexivity | discriminate H]
            | split; reflexivity]).
Qed.

(** ** Flipping keeps the shape of the board *)

Lemma inner_reflect j : 0 <= j < 120 -> Grid.inner (119 - j) = Grid.inner j.
Proof.
  intros Hj. unfold Grid.inner.
  assert (Hq : (119 - j) / 10 = 11 - j / 10)
    by (symmetry; apply (Z.div_unique (119 - j) 10 _ (9 - j mod 10));
        [pose proof (Z.mod_pos_bound j 10) | pose proof (Z.div_mod j 10)]; lia).
  assert (Hr : (119 - j) mod 10 = 9 - j mod 10)
    by (pose proof (Z.div_mod j 10); pose proof (Z.div_mod (119 - j) 10); lia).
  rewrite Hq, Hr. apply eq_true_iff_eq.
  rewrite !andb_true_iff, !Z.leb_le. lia.
Qed.

Lemma cell_ok_Flip j j' p :
  Grid.inner j' = Grid.inner j ->
  Grid.cell_ok j p = true -> Grid.cell_ok j' (Piece.Flip p) = true.
Proof.
  unfold Grid.cell_ok. intros ->. destruct (Grid.inner j);
    destruct p as [[] [] [] [] [] [] [] []]; cbn; intros H;
    first [reflexivity | discriminate H].
Qed.

Lemma Board_Flip_padded_aux (a : Board) :
  Grid.padded a -> Grid.padded (Board.Flip a).
Proof.
  intros [Hl Hc]. split; [by rewrite Board_Flip_length|].
  intros j p Hj. rewrite Board_Flip_lookup, Hl in Hj.
  destruct (decide (j < 120)%nat) as [Hlt|]; [|discriminate Hj].
  destruct (lookup_lt_is_Some_2 a (120 - j - 1)%nat) as [q Hq]; [lia|].
  rewrite Hq in Hj. injection Hj as <-.
  apply (cell_ok_Flip (Z.of_nat (120 - j - 1))); [|by apply Hc].
  replace (Z.of_nat (120 - j - 1)) with (119 - Z.of_nat j) by lia.
  symmetry. apply inner_reflect. lia.
Qed.

(** The padding invariant survives [Board.Flip], and with it
    [Position.Flip]: the off-board ring is mapped onto itself. *)
Theorem Flip_keeps_padding (pos : Position) :
  Grid.padded (board pos) ->
  Grid.padded (Board.Flip (board pos)) /\
  Grid.padded (board (Position.Flip pos)).
Proof. intros H. split; by apply Board_Flip_padded_aux. Qed.

Lemma Flip_keeps_padding_witness :
  Grid.padded (Board.Flip (board Fixtures.start)) /\
  Grid.padded (board (Position.Flip Fixtures.start)).
Proof.
  apply (Flip_keeps_padding Fixtures.start).
  apply paddedb_spec. vm_compute. reflexivity.
Defined.

(** ** More on FEN decoding *)

Lemma board_set_wf (b b' : Board) i p :
  Piece.valid p = true -> Board.wf b ->
  board_set b i p = Ok b' -> Board.wf b'.
Proof.
  intros Hp [Hl Hv] H. apply board_set_inv in H as (_ & _ & ->).
  split; [by rewrite length_insert|]. by apply Forall_insert.
Qed.

(** The digit loop [for j := Piece(0); q-j >= '1'; j++], whose counter
    and difference are bytes: for a digit [q] between ['1'] and ['8'] it
    ends after [q - '0'] rounds, having written that many empty squares
    from [index] on and moved the index past them. *)
Theorem dots_spec (q : Z) (b : Board) (index : Z) :
  49 <= q <= 56 ->
  0 <= index -> index + (q - 48) <= Z.of_nat (length b) ->
  length b = 120%nat ->
  exists b',
    Fen.dots 256 q 0 b index = Ok (b', index + (q - 48)) /\
    length b' = 120%nat /\
    forall k : nat,
      b' !! k = if decide (index <= Z.of_nat k < index + (q - 48))
                then Some "."%char else b !! k.
Proof.
  intros Hq Hi Hfit Hlen.
  assert (Hgen : forall (n : nat) fuel j b0 idx,
    Z.of_nat n = q - 48 - j -> 0 <= j -> (n < fuel)%nat ->
    0 <= idx -> idx + Z.of_nat n <= 120 -> length b0 = 120%nat ->
    exists b',
      Fen.dots fuel q j b0 idx = Ok (b', idx + Z.of_nat n) /\
      length b' = 120%nat /\
      forall k : nat,
        b' !! k = if decide (idx <= Z.of_nat k < idx + Z.of_nat n)
                  then Some "."%char else b0 !! k).
  { induction n as [|n IH]; intros fuel j b0 idx Hn Hj Hf Hidx Hend Hl0;
      (destruct fuel as [|fuel]; [lia|]); cbn [Fen.dots].
    - rewrite Z.mod_small by lia.
      destruct (49 <=? q - j) eqn:E; [apply Z.leb_le in E; lia|].
      exists b0. rewrite Z.add_0_r. split; [done|]. split; [done|].
      intros k. by rewrite decide_False by lia.
    - rewrite Z.mod_small by lia.
      destruct (49 <=? q - j) eqn:E; [|apply Z.leb_gt in E; lia].
      rewrite board_set_Ok by (done || lia). cbn [mbind result_bind].
      rewrite (Z.mod_small (j + 1)) by lia.
      destruct (IH fuel (j + 1) (<[Z.to_nat idx := "."%char]> b0) (idx + 1))
        as (b' & Hd & Hl' & Hk);
        [lia | lia | lia | lia | lia | by rewrite length_insert |].
      exists b'. split; [rewrite Hd; f_equal; f_equal; lia|].
      split; [done|]. intros k. rewrite Hk.
      destruct (decide (idx + 1 <= Z.of_nat k < idx + 1 + Z.of_nat n));
        destruct (decide (idx <= Z.of_nat k < idx + Z.of_nat (S n)));
        try done; try lia.
      + replace k with (Z.to_nat idx) by lia.
        apply list_lookup_insert_eq. lia.
      + apply list_lookup_insert_ne. lia. }
  rewrite Hlen in Hfit.
  destruct (Hgen (Z.to_nat (q - 48)) 256%nat 0 b index) as (b' & Hd & Hl & Hk);
    [lia | lia | lia | lia | lia | done |].
  rewrite Z2Nat.id in Hd, Hk by lia. by exists b'.
Qed.

Lemma dots_spec_witness :
  exists b',
    Fen.dots 256 56 0 (replicate 120 " "%char) 21 = Ok (b', 21 + (56 - 48)) /\
    length b' = 120%nat /\
    forall k : nat,
      b' !! k = if decide (21 <= Z.of_nat k < 21 + (56 - 48))
                then Some "."%char else replicate 120 " "%char !! k.
Proof.
  apply (dots_spec 56 (replicate 120 " "%char) 21).
  - lia.
  - lia.
  - rewrite length_replicate. lia.
  - apply length_replicate.
Defined.

Lemma board_set_ends (b : Board) i p : board_set b i p <> OutOfFuel.
Proof. unfold board_set. by destruct (_ && _). Qed.

Lemma dots_ends fuel q : forall j b index,
  (Z.to_nat ((q - j) mod 256) < fuel)%nat -> 0 <= j < 256 -> 0 <= q < 256 ->
  (q - j) mod 256 <= q ->
  Fen.dots fuel q j b index <> OutOfFuel.
Proof.
  induction fuel as [|fuel IH]; intros j b index Hf Hj Hq Hle; [lia|].
  cbn [Fen.dots]. destruct (49 <=? (q - j) mod 256) eqn:E; [|discriminate].
  apply Z.leb_le in E.
  pose proof (board_set_ends b index ".") as Hset.
  destruct (board_set b index ".") as [b'| |]; cbn [mbind result_bind];
    [|discriminate|done].
  assert (Hjq : j <= q).
  { destruct (Z.le_gt_cases j q); [done|].
    assert ((q - j) mod 256 = q - j + 256)
      by (symmetry; apply (Z.mod_unique (q - j) 256 (-1)); lia).
    lia. }
  rewrite (Z.mod_small (q - j)) in * by lia.
  assert (Hj1 : (j + 1) mod 256 = j + 1) by (apply Z.mod_small; lia).
  apply IH; rewrite ?Hj1; rewrite ?Z.mod_small by lia; lia.
Qed.

Lemma dots_wf fuel q : forall j b index b' index',
  Board.wf b -> Fen.dots fuel q j b index = Ok (b', index') -> Board.wf b'.
Proof.
  induction fuel as [|fuel IH]; intros j b index b' index' Hb H;
    [discriminate H|].
  cbn [Fen.dots] in H. destruct (49 <=? (q - j) mod 256).
  - apply bind_Ok_inv in H as (b1 & Hs & H).
    apply (IH _ _ _ _ _ (board_set_wf b b1 index "." eq_refl Hb Hs) H).
  - by injection H as <- _.
Qed.

Lemma named_piece_valid q :
  (Piece.value q =? 0) && (Piece.value (Piece.Flip q) =? 0) = false ->
  Piece.valid q = true.
Proof.
  destruct q as [[] [] [] [] [] [] [] []]; cbn; intros H;
    first [reflexivity | discriminate H].
Qed.

Lemma cells_wf cs : forall b index r,
  Board.wf b -> Fen.cells cs b index = Ok r ->
  match r with
  | Next (b', _) => Board.wf b'
  | Return (b', _) => Board.wf b'
  end.
Proof.
  induction cs as [|c cs IH]; intros b index r Hb H; cbn [Fen.cells] in H.
  - by injection H as <-.
  - cbv zeta in H.
    destruct ((49 <=? piece_code (piece_of_code c)) &&
              (piece_code (piece_of_code c) <=? 56)).
    + apply bind_Ok_inv in H as ([b1 i1] & Hd & H).
      apply (IH _ _ _ (dots_wf _ _ _ _ _ _ _ Hb Hd) H).
    + destruct ((Piece.value (piece_of_code c) =? 0) &&
                (Piece.value (Piece.Flip (piece_of_code c)) =? 0)) eqn:E.
      * by injection H as <-.
      * apply bind_Ok_inv in H as (b1 & Hs & H).
        apply (IH _ _ _ (board_set_wf _ _ _ _ (named_piece_valid _ E) Hb Hs) H).
Qed.

Lemma rows_loop_wf rows : forall i b r,
  Board.wf b -> Fen.rows_loop rows i b = Ok r ->
  match r with
  | Next b' => Board.wf b'
  | Return (b', _) => Board.wf b'
  end.
Proof.
  induction rows as [|row rows IH]; intros i b r Hb H;
    cbn [Fen.rows_loop] in H.
  - by injection H as <-.
  - apply bind_Ok_inv in H as (c & Hc & H).
    pose proof (cells_wf _ _ _ _ Hb Hc) as Hwf.
    destruct c as [[b1 i1]|[b1 msg]].
    + destruct (negb (Z.rem i1 10 =? 9)); [by injection H as <-|].
      apply (IH _ _ _ Hwf H).
    + by injection H as <-.
Qed.

(** A board that [FEN] returns without an error has 120 cells, each one
    of the 14 piece codes; with [C7]'s input it still need not be
    padded. *)
Theorem FEN_cells_valid (fen : string) (b : Board) :
  Fen.FEN fen = Ok (b, None) -> Board.wf b.
Proof.
  unfold Fen.FEN. cbv zeta.
  destruct (negb (length (strings.Split _ "/") =? 8)%nat); [discriminate|].
  intros H. apply bind_Ok_inv in H as (r & Hr & H).
  assert (Hstart : Board.wf (replicate 120 " "%char)).
  { split; [apply length_replicate|]. by apply Forall_replicate. }
  pose proof (rows_loop_wf _ _ _ _ Hstart Hr) as Hwf.
  destruct r as [b1|[b1 msg]]; [|discriminate H].
  destruct (strings.Split fen " ") as [|p0 [|side ps]];
    try (by injection H as <-).
  destruct (String.eqb side "b"); injection H as <-; [|done].
  by apply Board_Flip_wf.
Qed.

Lemma FEN_cells_valid_witness : Board.wf (Tests.board_of Tests.start_fen).
Proof.
  apply (FEN_cells_valid Tests.start_fen). vm_compute. reflexivity.
Defined.

Lemma cells_ends cs : forall b index, Fen.cells cs b index <> OutOfFuel.
Proof.
  induction cs as [|c cs IH]; intros b index; cbn [Fen.cells]; [discriminate|].
  cbv zeta.
  destruct ((49 <=? piece_code (piece_of_code c)) &&
            (piece_code (piece_of_code c) <=? 56)) eqn:E.
  - apply andb_true_iff in E as [E1 E2].
    apply Z.leb_le in E1, E2.
    pose proof (dots_ends 256 (piece_code (piece_of_code c)) 0 b index) as Hd.
    rewrite Z.sub_0_r, Z.mod_small in Hd by lia.
    destruct (Fen.dots 256 (piece_code (piece_of_code c)) 0 b index)
      as [[b1 i1]| |]; cbn [mbind result_bind];
      [apply IH | discriminate | exfalso; apply Hd; lia || done].
  - destruct ((Piece.value (piece_of_code c) =? 0) &&
              (Piece.value (Piece.Flip (piece_of_code c)) =? 0));
      [discriminate|].
    pose proof (board_set_ends b index (piece_of_code c)) as Hset.
    destruct (board_set b index (piece_of_code c)); cbn [mbind result_bind];
      [apply IH | discriminate | done].
Qed.

Lemma rows_loop_ends rows : forall i b, Fen.rows_loop rows i b <> OutOfFuel.
Proof.
  induction rows as [|row rows IH]; intros i b; cbn [Fen.rows_loop];
    [discriminate|].
  pose proof (cells_ends (utf8.runes row) b (i * 10 + 21)) as Hc.
  destruct (Fen.cells (utf8.runes row) b (i * 10 + 21)) as [[[b1 i1]|e]| |];
    cbn [mbind result_bind]; try discriminate; [|done].
  destruct (negb (Z.rem i1 10 =? 9)); [discriminate | apply IH].
Qed.

(** [FEN] ends on every string: the digit loop stops although its
    counter and the difference it tests are bytes that wrap around. The
    only ways out are a result (board and error or [nil]) and the panic
    of an index out of range. *)
Theorem FEN_ends (fen : string) :
  Fen.FEN fen = Panic \/ exists b e, Fen.FEN fen = Ok (b, e).
Proof.
  pose proof (rows_loop_ends
    (strings.Split (hd EmptyString (strings.Split fen " ")) "/")
    0 (replicate 120 " "%char)) as Hr.
  unfold Fen.FEN. cbv zeta.
  destruct (negb (length (strings.Split _ "/") =? 8)%nat); [right; eauto|].
  destruct (Fen.rows_loop _ 0 _) as [[b1|[b1 msg]]| |];
    cbn [mbind result_bind]; [| right; eauto | by left | done].
  destruct (strings.Split fen " ") as [|p0 [|side ps]];
    [right; eauto | right; eauto |].
  destruct (String.eqb side "b"); right; eauto.
Qed.

(** ** Square names *)

Lemma get_beyond (s : string) : forall n,
  (String.length s <= n)%nat -> String.get n s = None.
Proof.
  induction s as [|c s IH]; intros n Hn; [by destruct n|].
  destruct n as [|n]; cbn in *; [lia | apply IH; lia].
Qed.

Lemma string_index_beyond (s : string) (i : Z) :
  Z.of_nat (String.length s) <= i -> string_index s i = Panic.
Proof.
  intros Hi. unfold string_index. destruct (0 <=? i); [|done].
  rewrite get_beyond by lia. reflexivity.
Qed.

Lemma string_index_negative (s : string) (i : Z) :
  i < 0 -> string_index s i = Panic.
Proof.
  intros Hi. unfold string_index.
  destruct (0 <=? i) eqn:E; [apply Z.leb_le in E; lia | done].
Qed.

Lemma below_120 (P : nat -> bool) (s : Z) :
  forallb P (seq 0 120) = true -> 0 <= s < 120 -> P (Z.to_nat s) = true.
Proof.
  intros H Hs. rewrite forallb_forall in H. apply H, in_seq. lia.
Qed.

(** [Square.String] returns exactly on the 120 coordinates of the grid:
    below 0 and from 120 on one of its two string indexings is out of
    range. *)
Theorem Square_String_ok_iff (s : Square) :
  is_ok (SquareText.String s) = true <-> 0 <= s < 120.
Proof.
  split.
  - intros H. destruct (Z.lt_ge_cases s 0) as [Hneg|Hpos].
    + exfalso. unfold SquareText.String in H.
      pose proof (Z.quot_rem' s 10) as Hqr.
      pose proof (Z.rem_bound_pos_neg s 10 ltac:(lia) ltac:(lia)) as Hr.
      destruct (Z.eq_dec (Z.rem s 10) 0) as [H0|H0].
      * rewrite (string_index_negative _ (Z.quot s 10)) in H by lia.
        by destruct (string_index _ (Z.rem s 10)).
      * by rewrite (string_index_negative _ (Z.rem s 10)) in H by lia.
    + destruct (Z.lt_ge_cases s 120) as [Hlt|Hge]; [lia|].
      exfalso. unfold SquareText.String in H.
      pose proof (Z.quot_rem' s 10) as Hqr.
      pose proof (Z.rem_bound_pos s 10 ltac:(lia) ltac:(lia)) as Hr.
      rewrite (string_index_beyond _ (Z.quot s 10)) in H by (cbn; lia).
      by destruct (string_index _ (Z.rem s 10)).
  - intros Hs.
    pose proof (below_120 (fun n => is_ok (SquareText.String (Z.of_nat n))) s)
      as H.
    cbv beta in H. rewrite Z2Nat.id in H by lia. apply H; [|done].
    vm_compute. reflexivity.
Qed.

(** ** The square table of the protocol loop *)

Lemma is_ok_inv {A} (r : result A) (d : A) :
  is_ok r = true -> r = Ok (match r with Ok a => a | _ => d end).
Proof. destruct r; [reflexivity | discriminate..]. Qed.

Lemma sqr_built : Main.sqr = Ok Main.sqr_table.
Proof. apply (is_ok_inv Main.sqr ∅). vm_compute. reflexivity. Qed.

Lemma sqr_lookup (s : Square) :
  Grid.inner s = true ->
  exists f r,
    SquareText.String s = Ok (String f (String r EmptyString)) /\
    Main.sqr_table !! String f (String r EmptyString) = Some s.
Proof.
  intros Hs. pose proof (inner_bounds _ Hs) as Hb.
  pose proof (below_120
    (fun n =>
       negb (Grid.inner (Z.of_nat n)) ||
       match SquareText.String (Z.of_nat n) with
       | Ok (String f (String r EmptyString) as name) =>
           bool_decide (Main.sqr_table !! name = Some (Z.of_nat n))
       | _ => false
       end) s) as H.
  cbv beta in H. rewrite Z2Nat.id in H by lia.
  rewrite Hs in H. cbn [negb orb] in H.
  specialize (H ltac:(vm_compute; reflexivity) ltac:(lia)).
  destruct (SquareText.String s) as [[|f [|r [|? ?]]]| |]; try discriminate H.
  exists f, r. split; [reflexivity|].
  apply Is_true_true_2 in H. by apply bool_decide_unpack in H.
Qed.

(** The table [sqr] of the protocol loop is built without a panic, and
    reading a move with it undoes [Move.String] on every move between two
    squares of the inner 8x8 region, although the squares of the
    off-board ring share names. *)
Theorem parse_undoes_String (tbl : gmap string Square) (m : Move) (n : string) :
  Main.sqr = Ok tbl ->
  Grid.inner (from m) = true ->
  Grid.inner (to m) = true ->
  MoveText.String m = Ok n ->
  Main.parse tbl n = Ok m.
Proof.
  intros Htbl Hf Ht Hn. rewrite sqr_built in Htbl. injection Htbl as <-.
  destruct (sqr_lookup _ Hf) as (f1 & r1 & Hs1 & Hl1).
  destruct (sqr_lookup _ Ht) as (f2 & r2 & Hs2 & Hl2).
  unfold MoveText.String in Hn. rewrite Hs1, Hs2 in Hn.
  cbn in Hn. injection Hn as <-.
  unfold Main.parse.
  change (append (String f1 (String r1 EmptyString))
                 (String f2 (String r2 EmptyString)))
    with (String f1 (String r1 (String f2 (String r2 EmptyString)))).
  change (Main.slice (String f1 (String r1 (String f2 (String r2 EmptyString)))) 0 2)
    with (Ok (A := string) (String f1 (String r1 EmptyString))).
  change (Main.slice (String f1 (String r1 (String f2 (String r2 EmptyString)))) 2 4)
    with (Ok (A := string) (String f2 (String r2 EmptyString))).
  cbn [mbind result_bind]. rewrite Hl1, Hl2. by destruct m.
Qed.

Lemma parse_undoes_String_witness :
  Main.parse Main.sqr_table "e2e4"%string = Ok (mkMove 85 65).
Proof.
  apply (parse_undoes_String Main.sqr_table (mkMove 85 65) "e2e4"%string).
  - exact sqr_built.
  - vm_compute. reflexivity.
  - vm_compute. reflexivity.
  - vm_compute. reflexivity.
Defined.

(** ** The shape of the generated moves *)

Lemma ray_shape pos i p d fuel : forall j acc ms,
  Position.ray fuel pos i p d j acc = Ok ms ->
  Forall (fun m => plain_move pos i m \/ castling_move pos m) acc ->
  Forall (fun m => plain_move pos i m \/ castling_move pos m) ms.
Proof.
  induction fuel as [|fuel IH]; intros j acc ms H Hacc; [discriminate|].
  cbn [Position.ray] in H.
  apply bind_Ok_inv in H as (q & Hq & H).
  destruct (piece_eqb q " " || (negb (piece_eqb q ".") && Piece.ours q))
    eqn:Hstop; [by injection H as <-|].
  apply bind_Ok_inv in H as (brk & _ & H).
  destruct brk; [by injection H as <-|].
  assert (Hacc' : Forall (fun m => plain_move pos i m \/ castling_move pos m)
                         (acc ++ [mkMove i j])).
  { apply Forall_app. split; [done|]. constructor; [|constructor].
    left. split; [reflexivity|]. exists q. split; [exact Hq|].
    apply orb_false_iff in Hstop as [Hsp Hown]. unfold piece_eqb in *.
    apply Ascii.eqb_neq in Hsp. split; [done|].
    destruct (Ascii.eqb q ".") eqn:Hd; [left; by apply Ascii.eqb_eq|].
    right. exact Hown. }
  destruct (piece_eqb p "P" || piece_eqb p "N" || piece_eqb p "K" ||
            (negb (piece_eqb q " ") && negb (piece_eqb q ".") &&
             negb (Piece.ours q))); [by injection H as <-|].
  apply bind_Ok_inv in H as (m1 & Ha & H).
  apply bind_Ok_inv in H as (m2 & Hh & H).
  apply (IH _ _ _ H).
  assert (Hm1 : Forall (fun m => plain_move pos i m \/ castling_move pos m) m1).
  { unfold Position.castle_a in Ha.
    destruct (i =? A1); [|by injection Ha as <-].
    apply bind_Ok_inv in Ha as (r & Hr & Ha).
    destruct (piece_eqb r "K") eqn:HK; cbn [andb] in Ha;
      [|by injection Ha as <-].
    destruct (fst (wc pos)) eqn:Hw; injection Ha as <-; [|done].
    apply Forall_app. split; [done|]. constructor; [|constructor].
    right. apply Ascii.eqb_eq in HK. subst r.
    split; [exact Hr|]. left. cbn [from to]. unfold Dir.E, Dir.W.
    split; [lia | done]. }
  unfold Position.castle_h in Hh.
  destruct (i =? H1); [|by injection Hh as <-].
  apply bind_Ok_inv in Hh as (r & Hr & Hh).
  destruct (piece_eqb r "K") eqn:HK; cbn [andb] in Hh;
    [|by injection Hh as <-].
  destruct (snd (wc pos)) eqn:Hw; injection Hh as <-; [|done].
  apply Forall_app. split; [done|]. constructor; [|constructor].
  right. apply Ascii.eqb_eq in HK. subst r.
  split; [exact Hr|]. right. cbn [from to]. unfold Dir.E, Dir.W.
  split; [lia | done].
Qed.

(** Every generated move is a plain move of an own piece or a castling
    move. *)
Lemma Moves_shape pos ms m :
  length (board pos) = 120%nat ->
  Position.Moves pos = Ok ms -> m ∈ ms ->
  (exists p, board_get (board pos) (from m) = Ok p /\ Piece.ours p = true /\
             plain_move pos (from m) m) \/
  castling_move pos m.
Proof.
  intros Hl HM Hm. apply (Moves_elem _ _ _ HM) in Hm
    as (k & p & d & new & Hk & Hp & _ & Hr & Hm).
  pose proof (ray_shape _ _ _ _ _ _ _ _ Hr (Forall_nil_2 _)) as HS.
  rewrite Forall_forall in HS. destruct (HS _ Hm) as [Hpl|Hc]; [|by right].
  left. exists p. pose proof Hpl as [Hfrom _]. rewrite Hfrom.
  split; [|done]. apply board_get_Ok.
  pose proof (lookup_lt_Some _ _ _ Hk). rewrite Nat2Z.id. split; [lia|done].
Qed.

(** A generated move starts on a square that holds one of the mover's
    pieces. *)
Theorem Moves_start_on_own (pos : Position) (ms : list Move) (m : Move) :
  length (board pos) = 120%nat ->
  Position.Moves pos = Ok ms -> m ∈ ms ->
  exists p, board_get (board pos) (from m) = Ok p /\ Piece.ours p = true.
Proof.
  intros Hl HM Hm.
  destruct (Moves_shape _ _ _ Hl HM Hm) as [(p & Hp & Ho & _)|[HK _]].
  - by exists p.
  - by exists "K"%char.
Qed.

Lemma start_knight_generated :
  mkMove 92 73 ∈ Fixtures.moves_of Fixtures.start.
Proof. apply list_elem_of_In. vm_compute. tauto. Qed.

Lemma Moves_start_on_own_witness :
  exists p, board_get (board Fixtures.start) 92 = Ok p /\ Piece.ours p = true.
Proof.
  apply (Moves_start_on_own Fixtures.start
           (Fixtures.moves_of Fixtures.start) (mkMove 92 73)).
  - vm_compute. reflexivity.
  - vm_compute. reflexivity.
  - exact start_knight_generated.
Defined.

(** A generated move never lands on an own piece or on the off-board
    ring, unless it is a castling move: a two-square move of a king under
    a set castling flag, whose target is not examined. *)
Theorem Moves_land_on_free (pos : Position) (ms : list Move) (m : Move) :
  length (board pos) = 120%nat ->
  Position.Moves pos = Ok ms -> m ∈ ms ->
  (exists q, board_get (board pos) (to m) = Ok q /\
             q <> " " /\ (q = "." \/ Piece.ours q = false)) \/
  castling_move pos m.
Proof.
  intros Hl HM Hm.
  destruct (Moves_shape _ _ _ Hl HM Hm) as [(p & _ & _ & _ & Hq)|Hc];
    [by left | by right].
Qed.

Lemma Moves_land_on_free_witness :
  (exists q, board_get (board Fixtures.start) 73 = Ok q /\
             q <> " " /\ (q = "." \/ Piece.ours q = false)) \/
  castling_move Fixtures.start (mkMove 92 73).
Proof.
  apply (Moves_land_on_free Fixtures.start
           (Fixtures.moves_of Fixtures.start) (mkMove 92 73)).
  - vm_compute. reflexivity.
  - vm_compute. reflexivity.
  - exact start_knight_generated.
Defined.

(** ** What the generator reads *)

Lemma ray_frame pos pos' i p d fuel : forall j acc,
  board pos = board pos' -> wc pos = wc pos' ->
  ep pos = ep pos' -> kp pos = kp pos' ->
  Position.ray fuel pos i p d j acc = Position.ray fuel pos' i p d j acc.
Proof.
  intros j acc Hb Hw He Hk. revert j acc.
  induction fuel as [|fuel IH]; intros j acc; [reflexivity|].
  cbn [Position.ray].
  unfold Position.pawn_break, Position.castle_a, Position.castle_h.
  rewrite <- Hb, <- Hw, <- He, <- Hk.
  destruct (board_get (board pos) j) as [q| |]; cbn [mbind result_bind];
    try reflexivity.
  destruct (piece_eqb q " " || _); [reflexivity|].
  destruct (if piece_eqb p "P" then _ else _) as [[]| |];
    cbn [mbind result_bind]; try reflexivity.
  destruct (piece_eqb p "P" || _ || _ || _); [reflexivity|].
  destruct (if i =? A1 then _ else _) as [m1| |];
    cbn [mbind result_bind]; try reflexivity.
  destruct (if i =? H1 then _ else _) as [m2| |];
    cbn [mbind result_bind]; try reflexivity.
  apply IH.
Qed.

Lemma squares_frame pos pos' cells : forall index acc,
  board pos = board pos' -> wc pos = wc pos' ->
  ep pos = ep pos' -> kp pos = kp pos' ->
  Position.squares pos cells index acc = Position.squares pos' cells index acc.
Proof.
  intros index acc Hb Hw He Hk. revert index acc.
  induction cells as [|c cells IH]; intros index acc; [reflexivity|].
  cbn [Position.squares]. destruct (negb (Piece.ours c)); [apply IH|].
  assert (Hrays : forall ds acc0,
    Position.rays pos index c ds acc0 = Position.rays pos' index c ds acc0).
  { induction ds as [|d ds IHd]; intros acc0; [reflexivity|].
    cbn [Position.rays].
    rewrite (ray_frame pos pos') by done.
    destruct (Position.ray _ pos' _ _ _ _ _); cbn [mbind result_bind];
      [apply IHd | reflexivity | reflexivity]. }
  rewrite Hrays.
  destruct (Position.rays pos' index c _ acc); cbn [mbind result_bind];
    [apply IH | reflexivity | reflexivity].
Qed.

(** [Moves] reads the board, the mover's castling flags and the two
    passant coordinates: the score and the opponent's castling flags do
    not change its result. *)
Theorem Moves_frame (pos pos' : Position) :
  board pos = board pos' -> wc pos = wc pos' ->
  ep pos = ep pos' -> kp pos = kp pos' ->
  Position.Moves pos = Position.Moves pos'.
Proof.
  intros Hb Hw He Hk. unfold Position.Moves. rewrite <- Hb.
  by apply squares_frame.
Qed.

Lemma Moves_frame_witness :
  Position.Moves Fixtures.start =
  Position.Moves (mkPosition (board Fixtures.start) 17 (false, false)
                             (true, true) 0 0).
Proof.
  apply (Moves_frame Fixtures.start
           (mkPosition (board Fixtures.start) 17 (false, false)
                       (true, true) 0 0)); reflexivity.
Defined.

Lemma squares_none pos cells : forall index acc,
  Forall (fun p => Piece.ours p = false) cells ->
  Position.squares pos cells index acc = Ok acc.
Proof.
  induction cells as [|c cells IH]; intros index acc H; [reflexivity|].
  apply Forall_cons in H as [Hc H]. cbn [Position.squares].
  rewrite Hc. cbn [negb]. by apply IH.
Qed.

(** With no piece of the mover on the board [Moves] returns the empty
    list, whatever the board holds otherwise. *)
Theorem Moves_none_without_pieces (pos : Position) :
  Forall (fun p => Piece.ours p = false) (board pos) ->
  Position.Moves pos = Ok [].
Proof. intros H. by apply squares_none. Qed.

Lemma Moves_none_without_pieces_witness :
  Position.Moves (initial (replicate 120 "."%char)) = Ok [].
Proof.
  apply (Moves_none_without_pieces (initial (replicate 120 "."%char))).
  by apply Forall_replicate.
Defined.

(** *** The forward steps of a pawn *)

Lemma pawn_move_elem pos ms i d :
  Position.Moves pos = Ok ms ->
  board_get (board pos) i = Ok "P" ->
  d ∈ Position.directions "P" ->
  (mkMove i (i + d) ∈ ms <->
   Position.ray (S 119) pos i "P" d (i + d) [] = Ok [mkMove i (i + d)]).
Proof.
  intros HM Hp Hd.
  pose proof (proj1 (board_get_Ok _ _ _) Hp) as [Hi Hpi].
  rewrite (Moves_elem _ _ _ HM). split.
  - intros (k & p & d' & new & Hk & Hours & Hdir & Hr & Hm).
    pose proof (ray_from _ _ _ _ _ _ _ _ Hr (Forall_nil_2 _)) as HQ.
    rewrite Forall_forall in HQ. specialize (HQ _ Hm). cbn [from] in HQ.
    destruct HQ as [->|HK]; [|congruence].
    rewrite Nat2Z.id in Hpi. assert (p = "P") as -> by congruence.
    change Position.ray_fuel with (S 119) in Hr.
    destruct (pawn_ray_step _ _ _ _ _ _ _ Hr) as [->| ->];
      [by apply elem_of_nil in Hm|].
    apply list_elem_of_singleton in Hm. injection Hm as Hj.
    assert (d' = d) as -> by lia. exact Hr.
  - intros Hr. exists (Z.to_nat i), "P"%char, d, [mkMove i (i + d)].
    rewrite Z2Nat.id by lia. split; [done|]. split; [reflexivity|].
    split; [done|]. split; [exact Hr|]. by apply list_elem_of_singleton.
Qed.

Lemma pawn_single_ray pos i fuel j :
  Position.ray (S fuel) pos i "P" Dir.N j [] = Ok [mkMove i j] <->
  board_get (board pos) j = Ok ".".
Proof.
  cbn [Position.ray]. unfold Position.pawn_break.
  change (piece_eqb "P" "P") with true.
  change (Dir.N =? Dir.N) with true.
  change (Dir.N =? Dir.N + Dir.N) with false.
  change (Dir.N =? Dir.N + Dir.W) with false.
  change (Dir.N =? Dir.N + Dir.E) with false.
  cbn [orb andb]. split.
  - intros H. apply bind_Ok_inv in H as (q & Hq & H). rewrite Hq. f_equal.
    destruct (piece_eqb q " " || (negb (piece_eqb q ".") && Piece.ours q));
      [discriminate H|].
    unfold piece_eqb in *. destruct (Ascii.eqb q ".") eqn:Hd;
      [by apply Ascii.eqb_eq | discriminate H].
  - intros ->. reflexivity.
Qed.

Lemma pawn_double_ray pos i fuel j :
  Position.ray (S fuel) pos i "P" (Dir.N + Dir.N) j [] = Ok [mkMove i j] <->
  A1 + Dir.N <= i /\
  board_get (board pos) (i + Dir.N) = Ok "." /\
  board_get (board pos) j = Ok ".".
Proof.
  cbn [Position.ray]. unfold Position.pawn_break.
  change (piece_eqb "P" "P") with true.
  change (Dir.N + Dir.N =? Dir.N) with false.
  change (Dir.N + Dir.N =? Dir.N + Dir.N) with true.
  change (Dir.N + Dir.N =? Dir.N + Dir.W) with false.
  change (Dir.N + Dir.N =? Dir.N + Dir.E) with false.
  cbn [orb andb]. split.
  - intros H. apply bind_Ok_inv in H as (q & Hq & H). rewrite Hq.
    destruct (piece_eqb q " " || (negb (piece_eqb q ".") && Piece.ours q));
      [discriminate H|].
    unfold piece_eqb in *. destruct (Ascii.eqb q ".") eqn:Hd;
      [apply Ascii.eqb_eq in Hd; subst q | discriminate H].
    cbn [negb] in H.
    destruct (i <? A1 + Dir.N) eqn:Hi; [discriminate H|].
    apply Z.ltb_ge in Hi. split; [done|]. split; [|done].
    destruct (board_get (board pos) (i + Dir.N)) as [r| |];
      cbn [mbind result_bind] in H; try discriminate H.
    destruct (Ascii.eqb r ".") eqn:Hr;
      [apply Ascii.eqb_eq in Hr; by subst r | discriminate H].
  - intros (Hi & Hr & ->). cbn [mbind result_bind].
    change (piece_eqb "." " ") with false.
    change (piece_eqb "." ".") with true. cbn [negb orb andb].
    apply Z.ltb_ge in Hi. rewrite Hi, Hr. reflexivity.
Qed.

(** A pawn on [i] steps one square forward exactly when that square is
    empty, and two squares exactly when both squares are empty and the
    pawn stands on [A1+N = 81] or beyond - on its start rank or on the
    first rank. *)
Theorem pawn_forward_rule (pos : Position) (ms : list Move) (i : Z) :
  Position.Moves pos = Ok ms ->
  board_get (board pos) i = Ok "P" ->
  (mkMove i (i + Dir.N) ∈ ms <->
   board_get (board pos) (i + Dir.N) = Ok ".") /\
  (mkMove i (i + (Dir.N + Dir.N)) ∈ ms <->
   A1 + Dir.N <= i /\
   board_get (board pos) (i + Dir.N) = Ok "." /\
   board_get (board pos) (i + (Dir.N + Dir.N)) = Ok ".").
Proof.
  intros HM Hp. split.
  - rewrite (pawn_move_elem _ _ _ _ HM Hp)
      by (apply list_elem_of_In; cbn; tauto).
    apply pawn_single_ray.
  - rewrite (pawn_move_elem _ _ _ _ HM Hp)
      by (apply list_elem_of_In; cbn; tauto).
    apply pawn_double_ray.
Qed.

Lemma pawn_forward_rule_witness :
  (mkMove 85 (85 + Dir.N) ∈ Fixtures.moves_of Fixtures.start <->
   board_get (board Fixtures.start) (85 + Dir.N) = Ok ".") /\
  (mkMove 85 (85 + (Dir.N + Dir.N)) ∈ Fixtures.moves_of Fixtures.start <->
   A1 + Dir.N <= 85 /\
   board_get (board Fixtures.start) (85 + Dir.N) = Ok "." /\
   board_get (board Fixtures.start) (85 + (Dir.N + Dir.N)) = Ok ".").
Proof.
  apply (pawn_forward_rule Fixtures.start
           (Fixtures.moves_of Fixtures.start) 85).
  - vm_compute. reflexivity.
  - vm_compute. reflexivity.
Defined.

(** ** Applying a move *)

Lemma rights_step_fields np i j :
  let np' := Position.rights_step np i j in
  board np' = board np /\ score np' = score np /\
  ep np' = ep np /\ kp np' = kp np /\
  implb (fst (wc np')) (fst (wc np)) = true /\
  implb (snd (wc np')) (snd (wc np)) = true /\
  implb (fst (bc np')) (fst (bc np)) = true /\
  implb (snd (bc np')) (snd (bc np)) = true.
Proof.
  unfold Position.rights_step.
  destruct np as [b s [w0 w1] [c0 c1] e k].
  destruct (i =? A1), (i =? H1), (j =? A8), (j =? H8); cbn;
    destruct w0, w1, c0, c1; cbn; tauto.
Qed.

Lemma king_step_fields np p i j np' :
  Position.king_step np p i j = Ok np' ->
  score np' = score np /\ ep np' = ep np /\ kp np' = kp np /\
  bc np' = bc np /\ length (board np') = length (board np) /\
  (if piece_eqb p "K" then wc np' = (false, false) else np' = np).
Proof.
  unfold Position.king_step.
  destruct (piece_eqb p "K"); [|intros [= <-]; tauto].
  destruct (Int.abs (Int.sub j i) =? 2); [|intros [= <-]; cbn; tauto].
  intros H. apply bind_Ok_inv in H as (b1 & Hb1 & H).
  apply bind_Ok_inv in H as (b2 & Hb2 & H). injection H as <-. cbn.
  apply board_set_inv in Hb2 as (_ & _ & ->).
  assert (length b1 = length (board np)) as <-.
  { destruct (j <? i); apply board_set_inv in Hb1 as (_ & _ & ->);
      by rewrite length_insert. }
  rewrite length_insert. tauto.
Qed.

Lemma pawn_step_fields pos np p i j np' :
  Position.pawn_step pos np p i j = Ok np' ->
  score np' = score np /\ kp np' = kp np /\
  wc np' = wc np /\ bc np' = bc np /\
  length (board np') = length (board np).
Proof.
  unfold Position.pawn_step.
  destruct (piece_eqb p "P"); [|intros [= <-]; tauto].
  intros H. apply bind_Ok_inv in H as (np1 & Hp1 & H).
  assert (score np1 = score np /\ kp np1 = kp np /\ wc np1 = wc np /\
          bc np1 = bc np /\ length (board np1) = length (board np))
    as (<- & <- & <- & <- & <-).
  { destruct ((A8 <=? j) && (j <=? H8)); [|injection Hp1 as <-; tauto].
    apply bind_Ok_inv in Hp1 as (b & Hb & Hp1). injection Hp1 as <-. cbn.
    apply board_set_inv in Hb as (_ & _ & ->). rewrite length_insert. tauto. }
  destruct (Int.sub j i =? Int.mul 2 Dir.N);
    (destruct (j =? ep pos); [|injection H as <-; cbn; tauto]);
    apply bind_Ok_inv in H as (b & Hb & H); injection H as <-; cbn;
    apply board_set_inv in Hb as (_ & _ & ->); cbn;
    rewrite length_insert; tauto.
Qed.

(** The parts of [Move_np], one by one. *)
Lemma Move_np_inv pos m np :
  Position.Move_np pos m = Ok np ->
  exists p v b1 b2 np1,
    board_get (board pos) (from m) = Ok p /\
    Position.value pos m = Ok v /\
    board_set (board pos) (to m) p = Ok b1 /\
    board_set b1 (from m) "." = Ok b2 /\
    Position.king_step
      (Position.rights_step
         (mkPosition b2 (Int.add (score pos) v) (wc pos) (bc pos) 0 0)
         (from m) (to m)) p (from m) (to m) = Ok np1 /\
    Position.pawn_step pos np1 p (from m) (to m) = Ok np.
Proof.
  unfold Position.Move_np. intros H.
  apply bind_Ok_inv in H as (p & Hp & H).
  apply bind_Ok_inv in H as (v & Hv & H).
  apply bind_Ok_inv in H as (src & Hsrc & H).
  assert (src = p) as -> by congruence.
  apply bind_Ok_inv in H as (b1 & Hb1 & H).
  apply bind_Ok_inv in H as (b2 & Hb2 & H).
  apply bind_Ok_inv in H as (np1 & Hk & H).
  exists p, v, b1, b2, np1. cbn in *. tauto.
Qed.

Lemma Move_inv pos m np :
  Position.Move pos m = Ok np ->
  exists np0, Position.Move_np pos m = Ok np0 /\ np = Position.Flip np0.
Proof.
  rewrite Move_unfold.
  destruct (Position.Move_np pos m) as [np0| |]; intros [= <-]. eauto.
Qed.

(** The king-passant coordinate is never set: whatever the move, a
    castling move included, the successor carries the reflection 119 of
    the reset value 0. *)
Theorem Move_kp_is_119 (pos : Position) (m : Move) (np : Position) :
  Position.Move pos m = Ok np -> kp np = 119.
Proof.
  intros H. apply Move_inv in H as (np0 & H & ->).
  apply Move_np_inv in H as (p & v & b1 & b2 & np1 & _ & _ & _ & _ & Hk & Hp).
  apply pawn_step_fields in Hp as (_ & Hkp & _).
  apply king_step_fields in Hk as (_ & _ & Hkp1 & _).
  pose proof (rights_step_fields
    (mkPosition b2 (Int.add (score pos) v) (wc pos) (bc pos) 0 0)
    (from m) (to m)) as (_ & _ & _ & Hkp0 & _).
  cbn [Position.Flip kp]. rewrite Hkp, Hkp1, Hkp0. reflexivity.
Qed.

Lemma Move_kp_is_119_witness : kp Fixtures.after_knight = 119.
Proof.
  apply (Move_kp_is_119 Fixtures.start (mkMove 92 73)).
  vm_compute. reflexivity.
Defined.

(** The successor's score is the negated sum of the score and of what
    [value] says of the move, in machine arithmetic. *)
Theorem Move_score (pos : Position) (m : Move) (np : Position) :
  Position.Move pos m = Ok np ->
  exists v, Position.value pos m = Ok v /\
            score np = Int.neg (Int.add (score pos) v).
Proof.
  intros H. apply Move_inv in H as (np0 & H & ->).
  apply Move_np_inv in H as (p & v & b1 & b2 & np1 & _ & Hv & _ & _ & Hk & Hp).
  exists v. split; [done|].
  apply pawn_step_fields in Hp as (Hs & _).
  apply king_step_fields in Hk as (Hs1 & _).
  pose proof (rights_step_fields
    (mkPosition b2 (Int.add (score pos) v) (wc pos) (bc pos) 0 0)
    (from m) (to m)) as (_ & Hs0 & _).
  cbn [Position.Flip score]. rewrite Hs, Hs1, Hs0. reflexivity.
Qed.

Lemma Move_score_witness :
  exists v, Position.value Fixtures.start (mkMove 92 73) = Ok v /\
            score Fixtures.after_knight = Int.neg (Int.add (score Fixtures.start) v).
Proof.
  apply (Move_score Fixtures.start (mkMove 92 73)).
  vm_compute. reflexivity.
Defined.

(** A pawn's two-square advance leaves its skipped square as the
    successor's en-passant coordinate, seen from the other side. *)
Theorem double_step_sets_ep (pos : Position) (m : Move) (np : Position) :
  Position.Move pos m = Ok np ->
  board_get (board pos) (from m) = Ok "P" ->
  to m - from m = -20 ->
  ep np = 119 - (from m + Dir.N).
Proof.
  intros H HP Hd. apply Move_inv in H as (np0 & H & ->).
  apply Move_np_inv in H as (p & v & b1 & b2 & np1 & Hp & _ & Hb1 & _ & Hk & Hs).
  assert (p = "P") as -> by congruence.
  apply board_get_Ok in Hp as [Hi _].
  apply board_set_inv in Hb1 as (Hj & _).
  cbn [Position.Flip ep].
  enough (ep np0 = from m + Dir.N) as ->
    by (apply Square_Flip_small; unfold Dir.N; lia).
  unfold Position.pawn_step in Hs.
  change (piece_eqb "P" "P") with true in Hs. cbv iota in Hs.
  apply bind_Ok_inv in Hs as (np2 & _ & Hs).
  rewrite (sub_small (to m) (from m)) in Hs by lia.
  replace (to m - from m =? Int.mul 2 Dir.N) with true in Hs
    by (rewrite Hd; reflexivity).
  rewrite (add_small (from m) Dir.N) in Hs by (unfold Dir.N; lia).
  destruct (to m =? ep pos).
  - apply bind_Ok_inv in Hs as (b & _ & Hs). by injection Hs as <-.
  - by injection Hs as <-.
Qed.

Lemma double_step_sets_ep_witness :
  ep (Fixtures.after Fixtures.start (mkMove 85 65)) = 119 - (85 + Dir.N).
Proof.
  apply (double_step_sets_ep Fixtures.start (mkMove 85 65)).
  - vm_compute. reflexivity.
  - vm_compute. reflexivity.
  - reflexivity.
Defined.

(** [Move] only ever clears castling flags: a flag of the successor is
    set only if the flag it was swapped from was set, and after a king's
    move the mover has none left. *)
Theorem Move_clears_flags (pos : Position) (m : Move) (np : Position) (p : Piece) :
  Position.Move pos m = Ok np ->
  board_get (board pos) (from m) = Ok p ->
  implb (fst (bc np)) (fst (wc pos)) = true /\
  implb (snd (bc np)) (snd (wc pos)) = true /\
  implb (fst (wc np)) (fst (bc pos)) = true /\
  implb (snd (wc np)) (snd (bc pos)) = true /\
  (if piece_eqb p "K" then bc np = (false, false) else True).
Proof.
  intros H Hp0. apply Move_inv in H as (np0 & H & ->).
  apply Move_np_inv in H as (p' & v & b1 & b2 & np1 & Hp & _ & _ & _ & Hk & Hs).
  assert (p' = p) as -> by congruence.
  apply pawn_step_fields in Hs as (_ & _ & Hw & Hb & _).
  apply king_step_fields in Hk as (_ & _ & _ & Hb1 & _ & HK).
  pose proof (rights_step_fields
    (mkPosition b2 (Int.add (score pos) v) (wc pos) (bc pos) 0 0)
    (from m) (to m)) as (_ & _ & _ & _ & Hr1 & Hr2 & Hr3 & Hr4).
  cbn [wc bc] in Hr1, Hr2, Hr3, Hr4.
  cbn [Position.Flip wc bc fst snd]. rewrite Hw, Hb, Hb1.
  destruct (piece_eqb p "K").
  - rewrite HK. cbn. tauto.
  - subst np1. tauto.
Qed.

Lemma Move_clears_flags_witness :
  let np := Fixtures.after Fixtures.castle (mkMove 95 96) in
  implb (fst (bc np)) (fst (wc Fixtures.castle)) = true /\
  implb (snd (bc np)) (snd (wc Fixtures.castle)) = true /\
  implb (fst (wc np)) (fst (bc Fixtures.castle)) = true /\
  implb (snd (wc np)) (snd (bc Fixtures.castle)) = true /\
  (if piece_eqb "K" "K" then bc np = (false, false) else True).
Proof.
  apply (Move_clears_flags Fixtures.castle (mkMove 95 96) _ "K").
  - vm_compute. reflexivity.
  - vm_compute. reflexivity.
Defined.

(** ** [Move] inside the grid *)

Lemma king_step_total np p i j :
  length (board np) = 120%nat -> 0 <= i < 120 -> 0 <= j < 120 ->
  exists np', Position.king_step np p i j = Ok np'.
Proof.
  intros Hl Hi Hj. unfold Position.king_step.
  destruct (piece_eqb p "K"); [|eauto].
  destruct (Int.abs (Int.sub j i) =? 2); [|eauto]. cbn [board].
  assert (Hq : 0 <= Z.quot (Int.add i j) 2 < 120).
  { rewrite add_small by lia.
    pose proof (Z.quot_pos (i + j) 2).
    pose proof (Z.quot_lt_upper_bound (i + j) 2 120). lia. }
  destruct (j <? i);
    rewrite board_set_Ok by (done || unfold A1, H1; lia);
    cbn [mbind result_bind];
    rewrite board_set_Ok by (rewrite ?length_insert; done);
    cbn [mbind result_bind]; eauto.
Qed.

Lemma pawn_step_total pos np p i j :
  length (board np) = 120%nat -> 0 <= j <= 109 ->
  exists np', Position.pawn_step pos np p i j = Ok np'.
Proof.
  intros Hl Hj. unfold Position.pawn_step.
  destruct (piece_eqb p "P"); [|eauto].
  assert (H1 : exists np1,
    (if (A8 <=? j) && (j <=? H8)
     then b ← board_set (board np) j "Q"; Ok (Position.with_board np b)
     else Ok np) = Ok np1 /\ length (board np1) = 120%nat).
  { destruct ((A8 <=? j) && (j <=? H8)); [|eauto].
    rewrite board_set_Ok by (done || lia). cbn [mbind result_bind].
    eexists. split; [reflexivity|]. cbn. by rewrite length_insert. }
  destruct H1 as (np1 & -> & Hl1). cbn [mbind result_bind].
  destruct (Int.sub j i =? Int.mul 2 Dir.N);
    (destruct (j =? ep pos); [|eauto]);
    rewrite (add_small j Dir.S) by (unfold Dir.S; lia); cbn [board];
    rewrite board_set_Ok by (done || unfold Dir.S; lia);
    cbn [mbind result_bind]; eauto.
Qed.

Lemma Move_in_grid (pos : Position) (m : Move) :
  length (board pos) = 120%nat ->
  0 <= from m < 120 ->
  0 <= to m <= 109 ->
  exists np, Position.Move pos m = Ok np /\ length (board np) = 120%nat.
Proof.
  intros Hl Hi Hj.
  destruct (board_get_total (board pos) (from m)) as [p Hp]; [done|lia|].
  destruct (value_total pos m) as [v Hv]; [done|lia|lia|].
  assert (Hnp : exists np0, Position.Move_np pos m = Ok np0 /\
                            length (board np0) = 120%nat).
  { unfold Position.Move_np. rewrite Hp. cbn [mbind result_bind].
    rewrite Hv. cbn [mbind result_bind board].
    rewrite board_set_Ok by (done || lia). cbn [mbind result_bind].
    rewrite board_set_Ok by (rewrite ?length_insert; done || lia).
    cbn [mbind result_bind].
    set (np0 := Position.rights_step _ _ _).
    assert (Hb0 : length (board np0) = 120%nat).
    { unfold np0. rewrite rights_step_board. cbn.
      by rewrite !length_insert. }
    destruct (king_step_total np0 p (from m) (to m)) as [np1 Hk];
      [done | lia | lia |].
    rewrite Hk. cbn [mbind result_bind].
    apply king_step_fields in Hk as (_ & _ & _ & _ & Hl1 & _).
    destruct (pawn_step_total pos np1 p (from m) (to m)) as [np2 Hs];
      [congruence | lia |].
    exists np2. split; [done|].
    apply pawn_step_fields in Hs as (_ & _ & _ & _ & Hl2). congruence. }
  destruct Hnp as (np0 & Hnp & Hl0).
  exists (Position.Flip np0). split; [by rewrite Move_unfold, Hnp|].
  cbn [Position.Flip board]. by rewrite Board_Flip_length.
Qed.

(** [Move] returns for every move that starts inside the grid and ends
    on one of its first 110 cells, so that the square behind the target,
    which an en-passant capture clears, is inside as well. *)
Theorem Move_total (pos : Position) (m : Move) :
  length (board pos) = 120%nat ->
  0 <= from m < 120 ->
  0 <= to m <= 109 ->
  exists np, Position.Move pos m = Ok np /\ length (board np) = 120%nat.
Proof. apply Move_in_grid. Qed.

Lemma Move_total_witness :
  exists np, Position.Move Fixtures.start (mkMove 92 73) = Ok np /\
             length (board np) = 120%nat.
Proof.
  apply (Move_total Fixtures.start (mkMove 92 73)).
  - vm_compute. reflexivity.
  - cbn. lia.
  - cbn. lia.
Defined.

(** [Move] and [value] panic on a move whose origin is outside the
    grid, whatever the position. *)
Theorem Move_panics_outside (pos : Position) (m : Move) :
  ~ 0 <= from m < 120 ->
  Position.Move pos m = Panic /\ Position.value pos m = Panic.
Proof.
  intros Hi.
  assert (Hget : board_get (board pos) (from m) = Panic).
  { unfold board_get, board_len.
    destruct (0 <=? from m) eqn:E1; [|reflexivity].
    destruct (from m <? 120) eqn:E2; [|reflexivity].
    apply Z.leb_le in E1. apply Z.ltb_lt in E2. lia. }
  split.
  - rewrite Move_unfold. unfold Position.Move_np. by rewrite Hget.
  - unfold Position.value. by rewrite Hget.
Qed.

Lemma Move_panics_outside_witness :
  Position.Move Fixtures.start (mkMove 120 73) = Panic /\
  Position.value Fixtures.start (mkMove 120 73) = Panic.
Proof.
  apply (Move_panics_outside Fixtures.start (mkMove 120 73)). cbn. lia.
Defined.

(** ** The invariant of the positions the program builds *)

Lemma ours_playable p : Piece.ours p = true -> Piece.playable p = true.
Proof.
  destruct p as [[] [] [] [] [] [] [] []]; cbn; intros H;
    first [reflexivity | discriminate H].
Qed.

Lemma padded_insert (b : Board) (k : Z) p :
  Grid.padded b -> Grid.inner k = true -> Piece.playable p = true ->
  Grid.padded (<[Z.to_nat k := p]> b).
Proof.
  intros [Hl Hc] Hk Hp. pose proof (inner_bounds _ Hk) as Hb.
  split; [by rewrite length_insert|]. intros j q Hj.
  destruct (decide (j = Z.to_nat k)) as [->|Hne].
  - rewrite list_lookup_insert_eq in Hj by lia. injection Hj as <-.
    unfold Grid.cell_ok. rewrite Z2Nat.id by lia. by rewrite Hk.
  - rewrite list_lookup_insert_ne in Hj by done. by apply Hc.
Qed.

Lemma crawler_ray_step pos i p d fuel j acc ms :
  crawler p = true ->
  Position.ray (S fuel) pos i p d j acc = Ok ms ->
  ms = acc \/ ms = acc ++ [mkMove i j].
Proof.
  unfold crawler. cbn [Position.ray]. intros Hc H.
  apply bind_Ok_inv in H as (q & _ & H).
  destruct (piece_eqb q " " || (negb (piece_eqb q ".") && Piece.ours q));
    [left; by injection H as <-|].
  apply bind_Ok_inv in H as (brk & _ & H).
  destruct brk; [left; by injection H as <-|].
  rewrite Hc in H. cbn [orb] in H. right. by injection H as <-.
Qed.

(** What is known of a generated move when no castling flag is set. *)
Lemma generated_facts pos ms m :
  sound pos -> Position.Moves pos = Ok ms -> m ∈ ms ->
  exists p,
    board_get (board pos) (from m) = Ok p /\ Piece.ours p = true /\
    Grid.inner (from m) = true /\ Grid.inner (to m) = true /\
    (crawler p = true ->
     exists d, d ∈ Position.directions p /\ to m = from m + d).
Proof.
  intros [Hpad [Hwc _]] HM Hm. pose proof Hpad as [Hl _].
  pose proof Hm as Hm0.
  apply (Moves_elem _ _ _ HM) in Hm
    as (k & p & d & new & Hk & Hp & Hd & Hr & Hm).
  pose proof (ray_shape _ _ _ _ _ _ _ _ Hr (Forall_nil_2 _)) as HS.
  rewrite Forall_forall in HS.
  destruct (HS _ Hm) as [[Hfrom (q & Hq & Hsp & _)]|[_ [[_ Hw]|[_ Hw]]]];
    [|rewrite Hwc in Hw; discriminate Hw..].
  assert (Hget : board_get (board pos) (from m) = Ok p).
  { rewrite Hfrom. apply board_get_Ok.
    pose proof (lookup_lt_Some _ _ _ Hk). rewrite Nat2Z.id.
    split; [lia|done]. }
  exists p. split; [done|]. split; [done|].
  split; [eapply padded_inner; [done | exact Hget | by apply ours_not_sentinel]|].
  split; [eapply padded_inner; [done | exact Hq | done]|].
  intros Hc. exists d. split; [done|].
  change Position.ray_fuel with (S 119) in Hr.
  destruct (crawler_ray_step _ _ _ _ _ _ _ _ Hc Hr) as [->| ->];
    [by apply elem_of_nil in Hm|].
  apply list_elem_of_singleton in Hm. subst m. reflexivity.
Qed.

Lemma behind_pawn_target (i d : Z) :
  Grid.inner i = true -> Grid.inner (i + d) = true ->
  d ∈ Position.directions "P" ->
  Grid.inner (i + d + Dir.S) = true.
Proof.
  intros Hi Hj Hd. pose proof (inner_bounds _ Hi) as Hb.
  pose proof (below_120
    (fun n => forallb (fun d => implb (Grid.inner (Z.of_nat n) &&
                                       Grid.inner (Z.of_nat n + d))
                                      (Grid.inner (Z.of_nat n + d + Dir.S)))
                      (Position.directions "P")) i) as H.
  cbv beta in H. rewrite Z2Nat.id in H by lia.
  specialize (H ltac:(vm_compute; reflexivity) ltac:(lia)).
  rewrite forallb_forall in H. apply list_elem_of_In in Hd.
  specialize (H _ Hd). by rewrite Hi, Hj in H.
Qed.

Lemma king_step_is_short (i d : Z) :
  0 <= i < 120 -> d ∈ Position.directions "K" ->
  (Int.abs (Int.sub (i + d) i) =? 2) = false.
Proof.
  intros Hi Hd. apply list_elem_of_In in Hd. cbn in Hd.
  unfold Dir.N, Dir.E, Dir.S, Dir.W in Hd.
  repeat destruct Hd as [<-|Hd]; try contradiction;
    rewrite sub_small by lia;
    match goal with
    | |- (Int.abs (i + ?d - i) =? 2) = false =>
        replace (i + d - i) with d by lia; reflexivity
    end.
Qed.

Lemma flags_stay_clear (x y : bool * bool) :
  y = (false, false) ->
  implb (fst x) (fst y) = true -> implb (snd x) (snd y) = true ->
  x = (false, false).
Proof. intros ->. destruct x as [[] []]; cbn; congruence. Qed.

Lemma Move_keeps_sound pos ms m :
  sound pos -> Position.Moves pos = Ok ms -> m ∈ ms ->
  exists np, Position.Move pos m = Ok np /\ sound np.
Proof.
  intros Hsound HM Hm.
  destruct (generated_facts _ _ _ Hsound HM Hm)
    as (p & Hp & Ho & Hi & Hj & Hc).
  destruct Hsound as [Hpad [Hwc Hbc]]. pose proof Hpad as [Hl _].
  pose proof (inner_bounds _ Hi) as Hib.
  pose proof (inner_bounds _ Hj) as Hjb.
  destruct (Move_in_grid pos m) as (np & HMv & _); [done | lia | lia |].
  exists np. split; [done|].
  apply Move_inv in HMv as (np0 & H & ->).
  apply Move_np_inv in H
    as (p' & v & b1 & b2 & np1 & Hp' & _ & Hb1 & Hb2 & Hk & Hs).
  assert (p' = p) as -> by congruence.
  apply board_set_inv in Hb1 as (_ & _ & ->).
  apply board_set_inv in Hb2 as (_ & _ & ->).
  set (b2 := <[Z.to_nat (from m) := "."%char]>
               (<[Z.to_nat (to m) := p]> (board pos))) in *.
  assert (Hpad2 : Grid.padded b2).
  { apply padded_insert; [|done|reflexivity].
    apply padded_insert; [done|done|by apply ours_playable]. }
  pose proof (rights_step_fields
    (mkPosition b2 (Int.add (score pos) v) (wc pos) (bc pos) 0 0)
    (from m) (to m)) as (Hrb & _ & _ & _ & Hr1 & Hr2 & Hr3 & Hr4).
  set (npr := Position.rights_step _ _ _) in *. cbn [board wc bc] in *.
  assert (Hwr : wc npr = (false, false)) by (by apply (flags_stay_clear _ (wc pos))).
  assert (Hbr : bc npr = (false, false)) by (by apply (flags_stay_clear _ (bc pos))).
  assert (H1 : Grid.padded (board np1) /\ wc np1 = (false, false) /\
               bc np1 = (false, false)).
  { unfold Position.king_step in Hk.
    destruct (piece_eqb p "K") eqn:HK.
    - apply Ascii.eqb_eq in HK. subst p.
      destruct (Hc eq_refl) as (d & Hd & Hto).
      rewrite Hto, king_step_is_short in Hk by (done || lia).
      injection Hk as <-. cbn. by rewrite Hrb.
    - injection Hk as <-. by rewrite Hrb. }
  destruct H1 as (Hpad1 & Hw1 & Hc1).
  assert (H2 : Grid.padded (board np0) /\ wc np0 = wc np1 /\ bc np0 = bc np1).
  { unfold Position.pawn_step in Hs.
    destruct (piece_eqb p "P") eqn:HP; [|by injection Hs as <-].
    apply Ascii.eqb_eq in HP. subst p.
    destruct (Hc eq_refl) as (d & Hd & Hto).
    assert (Hbehind : Grid.inner (to m + Dir.S) = true)
      by (rewrite Hto; apply behind_pawn_target; [done | by rewrite <- Hto | done]).
    apply bind_Ok_inv in Hs as (np2 & Hq & Hs).
    assert (Hnp2 : Grid.padded (board np2) /\ wc np2 = wc np1 /\ bc np2 = bc np1).
    { destruct ((A8 <=? to m) && (to m <=? H8)); [|by injection Hq as <-].
      apply bind_Ok_inv in Hq as (b & Hb & Hq). injection Hq as <-. cbn.
      apply board_set_inv in Hb as (_ & _ & ->).
      split; [|done]. by apply padded_insert. }
    destruct Hnp2 as (Hpad2' & Hw2 & Hb2').
    rewrite (add_small (to m) Dir.S) in Hs by (unfold Dir.S; lia).
    destruct (Int.sub (to m) (from m) =? Int.mul 2 Dir.N);
      (destruct (to m =? ep pos);
       [apply bind_Ok_inv in Hs as (b & Hb & Hs); injection Hs as <-; cbn;
        apply board_set_inv in Hb as (_ & _ & ->); cbn;
        split; [by apply padded_insert | done]
       |injection Hs as <-; cbn; done]). }
  destruct H2 as (Hpad0 & Hw0 & Hc0).
  split; [by apply Board_Flip_padded_aux|].
  split; cbn [Position.Flip wc bc]; [rewrite Hc0, Hc1 | rewrite Hw0, Hw1];
    reflexivity.
Qed.

Lemma Flip_keeps_sound pos : sound pos -> sound (Position.Flip pos).
Proof.
  intros [Hpad [Hw Hb]]. split; [by apply Board_Flip_padded_aux|].
  split; cbn [Position.Flip wc bc]; [rewrite Hb | rewrite Hw]; reflexivity.
Qed.

(** From a position with a padded board and no castling flag, every
    generated move can be applied, and the successor again has a padded
    board and no castling flag: the invariant under which [Moves] is
    total holds along every line of play. *)
Theorem successors_stay_sound (pos : Position) (ms : list Move) (m : Move) :
  sound pos -> Position.Moves pos = Ok ms -> m ∈ ms ->
  exists np, Position.Move pos m = Ok np /\ sound np /\
             exists ms', Position.Moves np = Ok ms'.
Proof.
  intros Hs HM Hm.
  destruct (Move_keeps_sound _ _ _ Hs HM Hm) as (np & HMv & Hnp).
  exists np. split; [done|]. split; [done|].
  destruct Hnp as [Hpad _]. unfold Position.Moves.
  apply squares_total; [done | lia |]. intros k p Hk. exact Hk.
Qed.

Lemma start_sound : sound Fixtures.start.
Proof.
  split; [apply paddedb_spec; vm_compute; reflexivity|].
  split; reflexivity.
Qed.

Lemma successors_stay_sound_witness :
  exists np, Position.Move Fixtures.start (mkMove 92 73) = Ok np /\ sound np /\
             exists ms', Position.Moves np = Ok ms'.
Proof.
  apply (successors_stay_sound Fixtures.start
           (Fixtures.moves_of Fixtures.start) (mkMove 92 73)).
  - exact start_sound.
  - vm_compute. reflexivity.
  - exact start_knight_generated.
Defined.

(** ** The search never reads outside the grid *)

Lemma value_generated pos ms m :
  sound pos -> Position.Moves pos = Ok ms -> m ∈ ms ->
  exists v, Position.value pos m = Ok v.
Proof.
  intros Hs HM Hm.
  destruct (generated_facts _ _ _ Hs HM Hm) as (p & _ & _ & Hi & Hj & _).
  apply inner_bounds in Hi, Hj. destruct Hs as [[Hl _] _].
  apply value_total; [done | lia | lia].
Qed.

Lemma loop_never_panics rec pos gamma depth all :
  sound pos -> Position.Moves pos = Ok all ->
  (forall s np g d, sound np -> rec s np g d <> Panic) ->
  forall ms s bestScore bestMove,
    (forall m, m ∈ ms -> m ∈ all) ->
    Searcher.loop rec pos gamma depth ms s bestScore bestMove <> Panic.
Proof.
  intros Hs HM Hrec. induction ms as [|m ms IH];
    intros s bs bm Hsub; cbn [Searcher.loop]; [discriminate|].
  assert (Hm : m ∈ all) by (apply Hsub; left).
  destruct (value_generated _ _ _ Hs HM Hm) as [v Hv].
  destruct (Move_keeps_sound _ _ _ Hs HM Hm) as (np & Hnp & Hsnp).
  rewrite Hv, Hnp. cbn [mbind result_bind].
  assert (Hgo :
    ('(r, s0) ← rec s np (Int.sub 1 gamma) (Int.sub depth 1);
     let score := Int.neg r in
     let '(bestScore, bestMove) :=
       if bs <? score then (score, m) else (bs, bm) in
     if gamma <=? score then Ok (bestScore, bestMove, s0)
     else Searcher.loop rec pos gamma depth ms s0 bestScore bestMove)
    <> Panic).
  { pose proof (Hrec s np (Int.sub 1 gamma) (Int.sub depth 1) Hsnp) as Hr.
    destruct (rec s np (Int.sub 1 gamma) (Int.sub depth 1)) as [[r s0]| |];
      cbn [mbind result_bind]; [|done|discriminate].
    cbv zeta. destruct (bs <? Int.neg r);
      (destruct (gamma <=? Int.neg r); [discriminate|]);
      apply IH; intros m' Hm'; apply Hsub; by right. }
  destruct (depth <=? 0); cbn [mbind result_bind]; [|exact Hgo].
  destruct (v <? 150); [discriminate | exact Hgo].
Qed.

Lemma bound_never_panics_aux fuel : forall s pos gamma depth,
  sound pos -> Searcher.bound fuel s pos gamma depth <> Panic.
Proof.
  induction fuel as [|fuel IH]; intros s pos gamma depth Hs;
    cbn [Searcher.bound]; [discriminate|].
  cbv zeta. cbn [tp nodes].
  destruct (Searcher.probe _ _ gamma depth); [discriminate|].
  destruct (MateValue <=? Int.abs (score pos)); [discriminate|].
  set (s1 := mkSearcher (tp s) (Int.add (nodes s) 1)).
  assert (Hnull : forall k : Z * Searcher -> result (Z * Searcher),
    (forall x, k x <> Panic) ->
    ((if 0 <? depth
      then '(r, s') ← Searcher.bound fuel s1 (Position.Flip pos)
                         (Int.sub 1 gamma) (Int.sub depth 3);
           Ok (Int.neg r, s')
      else Ok (score pos, s1)) ≫= k) <> Panic).
  { intros k Hk. destruct (0 <? depth); cbn [mbind result_bind]; [|apply Hk].
    pose proof (IH s1 (Position.Flip pos) (Int.sub 1 gamma) (Int.sub depth 3)
                  (Flip_keeps_sound _ Hs)) as Hb.
    destruct (Searcher.bound fuel s1 _ _ _) as [[r s']| |];
      cbn [mbind result_bind]; [apply Hk | done | discriminate]. }
  apply Hnull. intros [nullScore s2].
  destruct (gamma <=? nullScore); [discriminate|].
  destruct (squares_total pos (board pos) (proj1 Hs) 0 [] ltac:(lia)
              (fun k p Hk => Hk)) as [ms HM].
  change (Position.squares pos (board pos) 0 []) with (Position.Moves pos) in HM.
  rewrite HM. cbn [mbind result_bind].
  pose proof (loop_never_panics (Searcher.bound fuel) pos gamma depth ms Hs HM
                (fun s0 np g d Hnp => IH s0 np g d Hnp)
                ms s2 (-3 * MateValue) (mkMove 0 0) (fun m Hm => Hm)) as Hloop.
  destruct (Searcher.loop _ pos gamma depth ms s2 _ _) as [[[bs bm] s3]| |];
    cbn [mbind result_bind]; [|done|discriminate].
  destruct ((depth <=? 0) && (bs <? nullScore)); discriminate.
Qed.

(** On a position with a padded board and no castling flag - every
    position the program builds and every position reached from one -
    [bound] never panics, at any depth, with any table and any fuel: each
    board and table read of the search, of the generator, of the
    evaluator and of the move application is inside the grid. *)
Theorem bound_never_panics (fuel : nat) (s : Searcher) (pos : Position)
    (gamma depth : Z) :
  sound pos -> Searcher.bound fuel s pos gamma depth <> Panic.
Proof. apply bound_never_panics_aux. Qed.

Lemma bound_never_panics_witness :
  Searcher.bound 3 new_searcher Fixtures.start 0 2 <> Panic.
Proof.
  apply (bound_never_panics 3 new_searcher Fixtures.start 0 2).
  exact start_sound.
Defined.

Lemma narrow_never_panics fuel bfuel pos depth : forall s lower upper score,
  sound pos ->
  Searcher.narrow fuel bfuel s pos depth lower upper score <> Panic.
Proof.
  induction fuel as [|fuel IH]; intros s lower upper score Hs;
    cbn [Searcher.narrow]; [discriminate|].
  destruct (lower <? Int.sub upper EvalRoughness); [|discriminate].
  cbv zeta.
  pose proof (bound_never_panics_aux bfuel s pos
    (Z.quot (Int.add (Int.add lower upper) 1) 2) depth Hs) as Hb.
  destruct (Searcher.bound bfuel s pos _ depth) as [[r s']| |];
    cbn [mbind result_bind]; [by apply IH | done | discriminate].
Qed.

Lemma deepen_never_panics n fuel bfuel pos maxNodes : forall s depth,
  sound pos ->
  Searcher.deepen n fuel bfuel s pos maxNodes depth <> Panic.
Proof.
  induction n as [|n IH]; intros s depth Hs;
    cbn [Searcher.deepen]; [discriminate|].
  pose proof (narrow_never_panics fuel bfuel pos depth s
                (-3 * MateValue) (3 * MateValue) 0 Hs) as Hn.
  destruct (Searcher.narrow fuel bfuel s pos depth _ _ 0) as [[r s']| |];
    cbn [mbind result_bind]; [|done|discriminate].
  destruct ((MateValue <=? Int.abs r) || (maxNodes <=? nodes s'));
    [discriminate | by apply IH].
Qed.

(** The same for the iterative deepening of [Search]. *)
Theorem Search_never_panics (fuel bfuel : nat) (s : Searcher) (pos : Position)
    (maxNodes : Z) :
  sound pos -> Searcher.Search fuel bfuel s pos maxNodes <> Panic.
Proof.
  intros Hs. unfold Searcher.Search. cbv zeta.
  pose proof (deepen_never_panics 98 fuel bfuel pos maxNodes
                (mkSearcher (tp s) 0) 1 Hs) as Hd.
  destruct (Searcher.deepen 98 fuel bfuel _ pos maxNodes 1) as [s'| |];
    cbn [mbind result_bind]; [discriminate | done | discriminate].
Qed.

Lemma Search_never_panics_witness :
  Searcher.Search 5 5 new_searcher Fixtures.start 100 <> Panic.
Proof.
  apply (Search_never_panics 5 5 new_searcher Fixtures.start 100).
  exact start_sound.
Defined.

(** ** The transposition table *)

Lemma store_size (s : Searcher) pos e :
  Z.of_nat (size (tp (Searcher.store s pos e))) <= MaxTableSize.
Proof.
  unfold Searcher.store. cbv zeta.
  destruct (MaxTableSize <? Z.of_nat (size (<[pos:=e]> (tp s)))) eqn:E; cbn [tp].
  - rewrite map_size_empty. unfold MaxTableSize. lia.
  - by apply Z.ltb_ge in E.
Qed.

Lemma loop_table_bounded rec pos gamma depth :
  (forall s np g d r s',
     Z.of_nat (size (tp s)) <= MaxTableSize ->
     rec s np g d = Ok (r, s') ->
     Z.of_nat (size (tp s')) <= MaxTableSize) ->
  forall ms s bestScore bestMove bs bm s',
    Z.of_nat (size (tp s)) <= MaxTableSize ->
    Searcher.loop rec pos gamma depth ms s bestScore bestMove
      = Ok (bs, bm, s') ->
    Z.of_nat (size (tp s')) <= MaxTableSize.
Proof.
  intros Hrec. induction ms as [|m ms IH];
    intros s bs0 bm0 bs bm s' Hs H; cbn [Searcher.loop] in H.
  - by injection H as _ _ <-.
  - apply bind_Ok_inv in H as (quiet & _ & H).
    destruct quiet; [by injection H as _ _ <-|].
    apply bind_Ok_inv in H as (np & _ & H).
    apply bind_Ok_inv in H as ([r s1] & Hr & H).
    apply Hrec in Hr; [|done]. cbv zeta in H.
    destruct (bs0 <? Int.neg r);
      (destruct (gamma <=? Int.neg r);
       [by injection H as _ _ <- | by apply (IH _ _ _ _ _ _ Hr H)]).
Qed.

Lemma bound_table_bounded fuel : forall s pos gamma depth r s',
  Z.of_nat (size (tp s)) <= MaxTableSize ->
  Searcher.bound fuel s pos gamma depth = Ok (r, s') ->
  Z.of_nat (size (tp s')) <= MaxTableSize.
Proof.
  induction fuel as [|fuel IH]; intros s pos gamma depth r s' Hs H;
    [discriminate H|].
  cbn [Searcher.bound] in H. cbv zeta in H. cbn [tp nodes] in H.
  destruct (Searcher.probe _ _ gamma depth); [by injection H as _ <-|].
  destruct (MateValue <=? Int.abs (score pos)); [by injection H as _ <-|].
  apply bind_Ok_inv in H as ([nullScore s1] & Hnull & H).
  assert (Hs1 : Z.of_nat (size (tp s1)) <= MaxTableSize).
  { destruct (0 <? depth).
    - apply bind_Ok_inv in Hnull as ([r0 s0] & Hb & Hnull).
      injection Hnull as _ <-. eapply IH; [|exact Hb]. exact Hs.
    - by injection Hnull as _ <-. }
  destruct (gamma <=? nullScore); [by injection H as _ <-|].
  apply bind_Ok_inv in H as (ms & _ & H).
  apply bind_Ok_inv in H as ([[bs bm] s2] & Hloop & H).
  apply (loop_table_bounded _ _ _ _ IH) in Hloop; [|done].
  destruct ((depth <=? 0) && (bs <? nullScore)); [by injection H as _ <-|].
  destruct (negb _ || _); injection H as _ <-; [apply store_size | done].
Qed.

(** The table never grows beyond [MaxTableSize] entries: if it is
    within the limit before a call of [bound], it is within the limit
    after it, whatever was stored on the way. *)
Theorem table_stays_bounded (fuel : nat) (s : Searcher) (pos : Position)
    (gamma depth r : Z) (s' : Searcher) :
  Z.of_nat (size (tp s)) <= MaxTableSize ->
  Searcher.bound fuel s pos gamma depth = Ok (r, s') ->
  Z.of_nat (size (tp s')) <= MaxTableSize.
Proof. apply bound_table_bounded. Qed.

Lemma table_stays_bounded_witness :
  Z.of_nat (size (tp (Fixtures.searcher_of
                        (Searcher.bound 3 new_searcher Fixtures.kings 0 2)
                        new_searcher))) <= MaxTableSize.
Proof.
  apply (table_stays_bounded 3 new_searcher Fixtures.kings 0 2
           (match Searcher.bound 3 new_searcher Fixtures.kings 0 2 with
            | Ok (r, _) => r
            | _ => 0
            end)).
  - vm_compute. discriminate.
  - vm_compute. reflexivity.
Defined.

(** A position whose score says that a king is gone is a leaf: unless
    the table answers, [bound] returns its score at once, at any depth
    and on any board, counts one node and leaves the table alone. *)
Theorem bound_mate_returns (fuel : nat) (s : Searcher) (pos : Position)
    (gamma depth : Z) :
  Searcher.hit s pos gamma depth = false ->
  MateValue <= Int.abs (score pos) ->
  Searcher.bound (S fuel) s pos gamma depth =
    Ok (score pos, mkSearcher (tp s) (Int.add (nodes s) 1)).
Proof.
  intros Hmiss Hmate. cbn [Searcher.bound]. cbv zeta. cbn [tp nodes].
  unfold Searcher.hit in Hmiss. rewrite Hmiss.
  apply Z.leb_le in Hmate. by rewrite Hmate.
Qed.

Lemma bound_mate_returns_witness :
  let pos := mkPosition (board Fixtures.kings) (- MateValue) (false, false) (false, false) 0 0 in
  Searcher.bound 1 new_searcher pos 0 5 =
    Ok (score pos, mkSearcher (tp new_searcher) (Int.add (nodes new_searcher) 1)).
Proof.
  apply (bound_mate_returns 0 new_searcher
           (mkPosition (board Fixtures.kings) (- MateValue) (false, false) (false, false) 0 0) 0 5).
  - vm_compute. reflexivity.
  - vm_compute. discriminate.
Defined.

(** What [bound] stores answers the same question: after an entry for
    [gamma] and [depth] is written, and unless the table was emptied for
    its size, the probe for the same position, threshold and depth hits
    and reads the stored entry. *)
Theorem store_then_hit (s : Searcher) (pos : Position) (gamma depth r : Z)
    (mv : Move) :
  Z.of_nat (size (<[pos := Entry.mk depth r gamma mv]> (tp s))) <= MaxTableSize ->
  Searcher.hit (Searcher.store s pos (Entry.mk depth r gamma mv)) pos gamma depth
    = true /\
  tp (Searcher.store s pos (Entry.mk depth r gamma mv)) !! pos
    = Some (Entry.mk depth r gamma mv).
Proof.
  intros Hsize. unfold Searcher.store. cbv zeta.
  apply Z.ltb_ge in Hsize. rewrite Hsize. cbn [tp].
  unfold Searcher.hit. cbn [tp]. rewrite lookup_insert_eq.
  split; [|reflexivity].
  unfold Searcher.probe.
  cbn [default from_option id Entry.depth Entry.score Entry.gamma].
  rewrite bool_decide_eq_true_2 by eauto.
  rewrite Z.leb_refl. cbn [andb].
  destruct (r <? gamma) eqn:E; cbn [andb orb]; [reflexivity|].
  apply Z.ltb_ge in E. apply Z.leb_le in E. by rewrite E.
Qed.

Lemma store_then_hit_witness :
  Searcher.hit (Searcher.store new_searcher Fixtures.kings
                  (Entry.mk 1 0 0 (mkMove 27 26))) Fixtures.kings 0 1 = true /\
  tp (Searcher.store new_searcher Fixtures.kings
        (Entry.mk 1 0 0 (mkMove 27 26))) !! Fixtures.kings
    = Some (Entry.mk 1 0 0 (mkMove 27 26)).
Proof.
  apply (store_then_hit new_searcher Fixtures.kings 0 1 0 (mkMove 27 26)).
  vm_compute. discriminate.
Defined.

(** ** The size of a move's value *)

Lemma pst_range p :
  Forall (fun x => 0 <= x <= 60083) (pst p) /\
  (p = "R"%char -> Forall (fun x => 0 <= x <= 546) (pst p)) /\
  (p = "Q"%char -> Forall (fun x => 0 <= x <= 1017) (pst p)) /\
  (p = "P"%char -> Forall (fun x => 0 <= x <= 202) (pst p)).
Proof.
  destruct p as [[] [] [] [] [] [] [] []];
    (split; [apply (bool_decide_unpack _); vm_compute; exact I|]);
    (split; [|split]); intros H; first [discriminate H | clear H];
    apply (bool_decide_unpack _); vm_compute; exact I.
Qed.

Lemma pst_get_range p j v (hi : Z) :
  Forall (fun x => 0 <= x <= hi) (pst p) ->
  pst_get p j = Ok v -> 0 <= v <= hi.
Proof.
  intros HF. unfold pst_get.
  destruct ((0 <=? j) && (j <? 120)); [|discriminate].
  destruct (pst p !! Z.to_nat j) as [x|] eqn:E; [|discriminate].
  intros [= <-]. rewrite Forall_forall in HF.
  apply HF. apply list_elem_of_lookup. eauto.
Qed.

Lemma add_mid x y :
  -1000000 <= x <= 1000000 -> -1000000 <= y <= 1000000 -> Int.add x y = x + y.
Proof.
  intros Hx Hy. unfold Int.add. apply wrap_id.
  unfold Int.ok, Int.min_int, Int.max_int. lia.
Qed.

Lemma sub_mid x y :
  -1000000 <= x <= 1000000 -> -1000000 <= y <= 1000000 -> Int.sub x y = x - y.
Proof.
  intros Hx Hy. unfold Int.sub. apply wrap_id.
  unfold Int.ok, Int.min_int, Int.max_int. lia.
Qed.

(** What [value] returns is built from at most seven table entries and
    never wraps around: it lies between -60831 and 182014, strictly
    between [-MateValue] and [3*MateValue], the bounds the search starts
    from. *)
Theorem value_bounded (pos : Position) (m : Move) (v : Z) :
  Position.value pos m = Ok v ->
  -60831 <= v <= 182014 /\ - MateValue < v < 3 * MateValue.
Proof.
  intros H. enough (-60831 <= v <= 182014) by (unfold MateValue; cbn; lia).
  unfold Position.value in H. cbv zeta in H.
  apply bind_Ok_inv in H as (p & _ & H).
  apply bind_Ok_inv in H as (q & _ & H).
  apply bind_Ok_inv in H as (pj & Hpj & H).
  apply bind_Ok_inv in H as (pi & Hpi & H).
  apply (pst_get_range _ _ _ _ (proj1 (pst_range p))) in Hpj, Hpi.
  apply bind_Ok_inv in H as (s1 & H1 & H).
  assert (B1 : -60083 <= s1 <= 120166).
  { rewrite sub_mid in H1 by lia.
    destruct (negb _ && negb _ && negb _); [|injection H1 as <-; lia].
    apply bind_Ok_inv in H1 as (x & Hx & H1).
    apply (pst_get_range _ _ _ _ (proj1 (pst_range _))) in Hx.
    rewrite add_mid in H1 by lia. injection H1 as <-. lia. }
  clear H1. apply bind_Ok_inv in H as (s2 & H2 & H).
  assert (B2 : -60083 <= s2 <= 180249).
  { destruct (Int.abs _ <? 2); [|injection H2 as <-; lia].
    apply bind_Ok_inv in H2 as (x & Hx & H2).
    apply (pst_get_range _ _ _ _ (proj1 (pst_range _))) in Hx.
    rewrite add_mid in H2 by lia. injection H2 as <-. lia. }
  clear H2. apply bind_Ok_inv in H as (s3 & H3 & H).
  assert (B3 : -60629 <= s3 <= 180795).
  { destruct (piece_eqb p "K" && _); [|injection H3 as <-; lia].
    apply bind_Ok_inv in H3 as (x & Hx & H3).
    apply (pst_get_range _ _ _ _
             (proj1 (proj2 (pst_range "R")) eq_refl)) in Hx.
    rewrite add_mid in H3 by lia.
    destruct (to m <? from m);
      apply bind_Ok_inv in H3 as (y & Hy & H3);
      apply (pst_get_range _ _ _ _
               (proj1 (proj2 (pst_range "R")) eq_refl)) in Hy;
      rewrite sub_mid in H3 by lia; injection H3 as <-; lia. }
  clear H3. destruct (piece_eqb p "P"); [|injection H as <-; lia].
  apply bind_Ok_inv in H as (s4 & H4 & H).
  assert (B4 : -60831 <= s4 <= 181812).
  { destruct ((A8 <=? to m) && (to m <=? H8)); [|injection H4 as <-; lia].
    apply bind_Ok_inv in H4 as (vq & Hq & H4).
    apply bind_Ok_inv in H4 as (vp & Hvp & H4).
    apply (pst_get_range _ _ _ _
             (proj1 (proj2 (proj2 (pst_range "Q"))) eq_refl)) in Hq.
    apply (pst_get_range _ _ _ _
             (proj2 (proj2 (proj2 (pst_range "P"))) eq_refl)) in Hvp.
    rewrite sub_mid in H4 by lia. rewrite add_mid in H4 by lia.
    injection H4 as <-. lia. }
  clear H4. destruct (to m =? ep pos); [|injection H as <-; lia].
  apply bind_Ok_inv in H as (x & Hx & H).
  apply (pst_get_range _ _ _ _
           (proj2 (proj2 (proj2 (pst_range "P"))) eq_refl)) in Hx.
  rewrite add_mid in H by lia. injection H as <-. lia.
Qed.

Lemma value_bounded_witness :
  -60831 <= -23 <= 182014 /\ - MateValue < -23 < 3 * MateValue.
Proof.
  apply (value_bounded Fixtures.kings (mkMove 27 26) (-23)).
  vm_compute. reflexivity.
Defined.

(** ** The rendering of a board *)

Lemma string_app_cons c s t : append (String c s) t = String c (append s t).
Proof. reflexivity. Qed.

Lemma string_app_assoc s t u :
  append (append s t) u = append s (append t u).
Proof.
  induction s as [|c s IH]; [reflexivity|].
  by rewrite !string_app_cons, IH.
Qed.

Lemma piece_string_valid p :
  Piece.valid p = true -> piece_string p = String p EmptyString.
Proof.
  destruct p as [[] [] [] [] [] [] [] []]; cbn; intros H;
    first [discriminate H | reflexivity].
Qed.

Lemma wf_cell (a : Board) (k : nat) :
  Board.wf a -> (k < 120)%nat ->
  piece_string (default zero (a !! k)) =
    String (default zero (a !! k)) EmptyString.
Proof.
  intros [Hl Hv] Hk.
  destruct (lookup_lt_is_Some_2 a k) as [p Hp]; [lia|].
  rewrite Hp. cbn [default from_option id]. apply piece_string_valid.
  rewrite Forall_forall in Hv. apply Hv.
  apply list_elem_of_lookup. eauto.
Qed.

Lemma render_row_eq (a : Board) (s : string) (row : nat) :
  Board.wf a -> (row < 11)%nat ->
  BoardText.render_row a s row =
    append s (append (row_text a row) (String newline EmptyString)).
Proof.
  intros Hwf Hrow. unfold BoardText.render_row, row_text.
  cbn [seq foldl map string_of_list_ascii].
  rewrite !(wf_cell a) by (done || lia).
  rewrite !string_app_assoc, !string_app_cons. reflexivity.
Qed.

(** For a board of valid piece codes [Board.String] is the plain 8x8
    text: a newline, then for each of the rows 2 to 9 the eight cells of
    the columns 1 to 8, one byte each, and a newline; 73 bytes in all,
    none of them from the off-board ring. *)
Theorem String_shape (a : Board) :
  Board.wf a ->
  BoardText.String a = board_text a /\
  String.length (BoardText.String a) = 73%nat.
Proof.
  intros Hwf.
  assert (H : BoardText.String a = board_text a).
  { unfold BoardText.String, board_text. cbn [seq foldl foldr].
    rewrite !render_row_eq by (done || lia).
    rewrite !string_app_assoc, !string_app_cons. reflexivity. }
  split; [exact H|]. rewrite H. reflexivity.
Qed.

Lemma String_shape_witness :
  BoardText.String (board Fixtures.start) = board_text (board Fixtures.start) /\
  String.length (BoardText.String (board Fixtures.start)) = 73%nat.
Proof.
  apply (String_shape (board Fixtures.start)). exact start_board_wf.
Defined.

(** ** The side-to-move field of a FEN string *)

Lemma Split_nonempty s sep : strings.Split s sep <> [].
Proof.
  destruct s as [|c s]; cbn [strings.Split]; [discriminate|].
  destruct (Ascii.eqb c sep); [discriminate|].
  destruct (strings.Split s sep); discriminate.
Qed.

Lemma Split_whole s sep :
  ~ In sep (list_ascii_of_string s) -> strings.Split s sep = [s].
Proof.
  induction s as [|c s IH]; intros Hs; cbn [strings.Split]; [reflexivity|].
  cbn [list_ascii_of_string In] in Hs.
  destruct (Ascii.eqb c sep) eqn:E; [apply Ascii.eqb_eq in E; tauto|].
  rewrite IH by tauto. reflexivity.
Qed.

Lemma Split_first s t sep :
  ~ In sep (list_ascii_of_string s) ->
  strings.Split (append s (String sep t)) sep = s :: strings.Split t sep.
Proof.
  induction s as [|c s IH]; intros Hs.
  - cbn [append strings.Split]. change (append EmptyString (String sep t))
      with (String sep t). cbn [strings.Split].
    by rewrite Ascii.eqb_refl.
  - cbn [list_ascii_of_string In] in Hs.
    rewrite string_app_cons. cbn [strings.Split].
    destruct (Ascii.eqb c sep) eqn:E; [apply Ascii.eqb_eq in E; tauto|].
    rewrite IH by tauto. reflexivity.
Qed.

(** Of everything that follows the piece placement [FEN] reads the
    second field only: the board is flipped when that field is ["b"],
    and otherwise the result is that of the placement alone; an error of
    the placement is returned as it is. *)
Theorem FEN_side_field (p t : string) :
  ~ In " "%char (list_ascii_of_string p) ->
  Fen.FEN (append p (String " " t)) =
    '(b, e) ← Fen.FEN p;
    Ok (if bool_decide (e = None) &&
           String.eqb (hd EmptyString (strings.Split t " ")) "b"
        then (Board.Flip b, None) else (b, e)).
Proof.
  intros Hp. unfold Fen.FEN. cbv zeta.
  rewrite (Split_first p t " " Hp), (Split_whole p " " Hp). cbn [hd].
  destruct (negb (length (strings.Split p "/") =? 8)%nat);
    cbn [mbind result_bind]; [reflexivity|].
  destruct (Fen.rows_loop (strings.Split p "/") 0 (replicate 120 " "%char))
    as [[b|[b msg]]| |]; cbn [mbind result_bind]; try reflexivity.
  pose proof (Split_nonempty t " ") as Hne.
  destruct (strings.Split t " ") as [|side more]; [done|]. cbn [hd].
  rewrite bool_decide_eq_true_2 by done. cbn [andb].
  by destruct (String.eqb side "b").
Qed.

Lemma FEN_side_field_witness :
  Fen.FEN (append Tests.game (String " " "b - - 0 1")) =
    '(b, e) ← Fen.FEN Tests.game;
    Ok (if bool_decide (e = None) &&
           String.eqb (hd EmptyString (strings.Split "b - - 0 1" " ")) "b"
        then (Board.Flip b, None) else (b, e)).
Proof.
  apply (FEN_side_field Tests.game "b - - 0 1").
  vm_compute. intuition discriminate.
Defined.

(** ** The start position of the front end *)

